(** * Vote ledger and answer acceptance of the Q&A backend

    A shallow embedding of the Mongoose models [Question] and [Answer]
    (their [vote], [getUserVote], [accept] and [unaccept] methods), of the
    notification service and of the Express routes that vote on, accept,
    unaccept and delete answers, followed by the properties of the
    vote/accept consistency model.

    Conventions of the embedding.
    - An [ObjectId] is a number; [a.toString() === b.toString()] on two
      ObjectIds is equality of the numbers.
    - A collection is a finite map from [_id] to document.  [findById]
      is lookup and hands out a private copy of the stored document.
      [doc.save()] sends the paths that were assigned a new value since
      the copy was read and sets them on the stored document; when no
      path was, it sends nothing.  For a copy read in the same handler,
      with no write to the document in between, that amounts to writing
      the copy back under its [_id] ([save_answer], [save_question]).
      The [answer.accept()] of the accept route is the one save that
      follows a write to what may be the same document; it is modelled
      path by path ([AnswerRoutes.save_accepted]).
    - [votes] is a JavaScript number that only ever moves by 1 or 2; it is
      an integer here.
    - [new Date()] is the clock reading [now] passed to the operation.
    - The [vote] and [content] fields of a request body are strings, in
      UTF-8.
    - Database reads and writes themselves do not throw; the only failing
      collaborator is the insertion of a notification. *)

From stdpp Require Import base option list gmap strings.
From Stdlib Require Import ZArith Lia.

Local Open Scope Z_scope.

Abbreviation ObjectId := N (only parsing).

(** ** Embedded vote history *)

(** [enum: ['up', 'down']] of the [voteHistory.vote] path. *)
Inductive VoteType : Type := up | down.

Global Instance VoteType_eq_dec : EqDecision VoteType.
Proof. solve_decision. Defined.

(** One element of the [voteHistory] array. *)
Record VoteEntry : Type := mkVoteEntry {
  user : ObjectId;
  vote : VoteType;
  createdAt : Z
}.

Global Instance VoteEntry_eq_dec : EqDecision VoteEntry.
Proof. solve_decision. Defined.

(** The body shared, line for line, by [questionSchema.methods.vote] and
    [answerSchema.methods.vote], on the two paths it touches ([votes] and
    [voteHistory]).  [list_find] returns the first index whose entry
    belongs to [userId] together with that entry: its [Some] case is
    [existingVoteIndex > -1] with [existingVote =
    this.voteHistory[existingVoteIndex]], its [None] case is the index -1. *)
Definition vote_body (votes : Z) (voteHistory : list VoteEntry)
    (userId : ObjectId) (voteType : VoteType) (now : Z) : Z * list VoteEntry :=
  match list_find (λ v, user v = userId) voteHistory with
  | Some (existingVoteIndex, existingVote) =>
      if decide (vote existingVote = voteType) then
        (* Remove vote if same type *)
        (votes - (if decide (vote existingVote = up) then 1 else -1),
         delete existingVoteIndex voteHistory)
      else
        (* Change vote *)
        (votes + (if decide (voteType = up) then 2 else -2),
         <[existingVoteIndex :=
             {| user := user existingVote; vote := voteType; createdAt := now |}]>
           voteHistory)
  | None =>
      (* New vote *)
      (votes + (if decide (voteType = up) then 1 else -1),
       voteHistory ++ [{| user := userId; vote := voteType; createdAt := now |}])
  end.

(** The body shared by both [getUserVote] methods. *)
Definition getUserVote_body (voteHistory : list VoteEntry) (userId : ObjectId)
    : option VoteType :=
  match list_find (λ v, user v = userId) voteHistory with
  | Some (_, v) => Some (vote v)
  | None => None
  end.

(** ** The Answer model *)

Module Answer.

Record t : Type := mk {
  content : string;
  questionId : ObjectId;
  answeredBy : ObjectId;
  votes : Z;
  isAccepted : bool;
  isDeleted : bool;
  voteHistory : list VoteEntry
}.

(** A document as [new Answer({content, questionId, answeredBy})] makes
    it: every other path takes its schema default. *)
Definition create (content : string) (questionId answeredBy : ObjectId) : t :=
  mk content questionId answeredBy 0 false false [].

Definition set_ledger (a : t) (vh : Z * list VoteEntry) : t :=
  mk (content a) (questionId a) (answeredBy a) vh.1 (isAccepted a)
     (isDeleted a) vh.2.

Definition set_isAccepted (a : t) (b : bool) : t :=
  mk (content a) (questionId a) (answeredBy a) (votes a) b (isDeleted a)
     (voteHistory a).

Definition set_isDeleted (a : t) (b : bool) : t :=
  mk (content a) (questionId a) (answeredBy a) (votes a) (isAccepted a) b
     (voteHistory a).

(** [answerSchema.methods.vote], before its [this.save()]. *)
Definition vote (this : t) (userId : ObjectId) (voteType : VoteType) (now : Z) : t :=
  set_ledger this (vote_body (votes this) (voteHistory this) userId voteType now).

Definition getUserVote (this : t) (userId : ObjectId) : option VoteType :=
  getUserVote_body (voteHistory this) userId.

(** [answerSchema.methods.accept] and [unaccept], before [this.save()]. *)
Definition accept (this : t) : t := set_isAccepted this true.
Definition unaccept (this : t) : t := set_isAccepted this false.

End Answer.

(** ** The Question model *)

Module Question.

Record t : Type := mk {
  title : string;
  description : string;
  tags : list string;
  askedBy : ObjectId;
  votes : Z;
  views : Z;
  isClosed : bool;
  isDeleted : bool;
  acceptedAnswer : option ObjectId;
  voteHistory : list VoteEntry
}.

Definition create (title description : string) (tags : list string)
    (askedBy : ObjectId) : t :=
  mk title description tags askedBy 0 0 false false None [].

Definition set_ledger (q : t) (vh : Z * list VoteEntry) : t :=
  mk (title q) (description q) (tags q) (askedBy q) vh.1 (views q)
     (isClosed q) (isDeleted q) (acceptedAnswer q) vh.2.

Definition set_acceptedAnswer (q : t) (p : option ObjectId) : t :=
  mk (title q) (description q) (tags q) (askedBy q) (votes q) (views q)
     (isClosed q) (isDeleted q) p (voteHistory q).

(** [questionSchema.methods.vote], before its [this.save()]. *)
Definition vote (this : t) (userId : ObjectId) (voteType : VoteType) (now : Z) : t :=
  set_ledger this (vote_body (votes this) (voteHistory this) userId voteType now).

Definition getUserVote (this : t) (userId : ObjectId) : option VoteType :=
  getUserVote_body (voteHistory this) userId.

End Question.

(** ** What the specification calls the ledger *)

(** Contribution of one ledger entry to the score. *)
Definition direction (d : VoteType) : Z :=
  match d with up => 1 | down => -1 end.

Definition opposite (d : VoteType) : VoteType :=
  match d with up => down | down => up end.

(** The score recomputed from the ledger. *)
Definition ledger_sum (voteHistory : list VoteEntry) : Z :=
  foldr (λ v acc, direction (vote v) + acc) 0 voteHistory.

Definition voters (voteHistory : list VoteEntry) : list ObjectId :=
  user <$> voteHistory.

(** One [castVote] call on an item: voter, direction, clock reading. *)
Definition cast : Type := ObjectId * VoteType * Z.

(** ** Users, notifications and the store *)

Inductive Role : Type := role_user | role_admin.

Global Instance Role_eq_dec : EqDecision Role.
Proof. solve_decision. Defined.

(** [req.user], as the [auth] middleware attaches it. *)
Record User : Type := mkUser {
  _id : ObjectId;
  username : string;
  role : Role
}.

(** [enum] of the notification [type] path. *)
Inductive NotificationType : Type :=
  | type_answer | type_comment | type_mention | type_vote | type_accept | type_system.

Inductive ItemType : Type := item_question | item_answer.

(** The [link] strings, by their parts: [/question/q] and
    [/question/q#answer-a]. *)
Inductive Link : Type :=
  | question_link (q : ObjectId)
  | answer_link (q a : ObjectId).

Record Notification : Type := mkNotification {
  recipientId : ObjectId;
  senderId : ObjectId;
  type : NotificationType;
  n_title : string;
  n_message : string;
  link : Link;
  n_questionId : option ObjectId;
  n_answerId : option ObjectId
}.

Record Store : Type := mkStore {
  questions : gmap N Question.t;
  answers : gmap N Answer.t;
  notifications : list Notification
}.

(** [answer.save()] and [question.save()] for a document found under [id]. *)
Definition save_answer (s : Store) (id : ObjectId) (doc : Answer.t) : Store :=
  mkStore (questions s) (<[id := doc]> (answers s)) (notifications s).

Definition save_question (s : Store) (id : ObjectId) (doc : Question.t) : Store :=
  mkStore (<[id := doc]> (questions s)) (answers s) (notifications s).

Definition set_notifications (s : Store) (ns : list Notification) : Store :=
  mkStore (questions s) (answers s) ns.

(** ** The notification service

    Every method returns the notification collection after the call, or
    [None] when the call throws.  [inserted] is the outcome of
    [Notification.create(data)]; [createNotification] logs and rethrows its
    failure. *)

Module NotificationService.

Definition createNotification (inserted : bool) (data : Notification)
    (ns : list Notification) : option (list Notification) :=
  if inserted then Some (ns ++ [data]) else None.

Definition notifyAnswerAccepted (inserted : bool)
    (answerId questionId answerAuthorId : ObjectId) (questionOwnerName : string)
    (ns : list Notification) : option (list Notification) :=
  createNotification inserted
    {| recipientId := answerAuthorId;
       senderId := answerAuthorId;
       type := type_accept;
       n_title := "Answer Accepted";
       n_message := questionOwnerName +:+ " accepted your answer";
       link := answer_link questionId answerId;
       n_questionId := Some questionId;
       n_answerId := Some answerId |} ns.

Definition notifyVoteReceived (inserted : bool)
    (itemId : ObjectId) (itemType : ItemType) (voterId itemOwnerId : ObjectId)
    (voterName : string) (isUpvote : bool)
    (ns : list Notification) : option (list Notification) :=
  if decide (voterId = itemOwnerId) then Some ns
  else
    let voteType := if isUpvote then "upvoted" else "downvoted" in
    let itemName :=
      match itemType with item_question => "question" | item_answer => "answer" end in
    createNotification inserted
      {| recipientId := itemOwnerId;
         senderId := voterId;
         type := type_vote;
         n_title := "Vote Received";
         n_message := voterName +:+ " " +:+ voteType +:+ " your " +:+ itemName;
         link := match itemType with
                 | item_question => question_link itemId
                 | item_answer => answer_link itemId itemId
                 end;
         n_questionId := match itemType with
                         | item_question => Some itemId | item_answer => None end;
         n_answerId := match itemType with
                       | item_answer => Some itemId | item_question => None end |} ns.

End NotificationService.

(** [try { await NotificationService... } catch (notifError) { console.error }]:
    a thrown notification leaves the store as it was. *)
Definition try_notify (s : Store) (outcome : option (list Notification)) : Store :=
  match outcome with
  | Some ns => set_notifications s ns
  | None => s
  end.

(** ** Responses *)

Inductive Payload : Type :=
  | no_payload
  | validation_errors
  | votes_payload (votes : Z)
  | answer_payload (id : ObjectId) (answer : Answer.t).

Record Response : Type := mkResponse {
  status : Z;
  message : string;
  payload : Payload
}.

Definition json (message : string) (payload : Payload) : Response :=
  mkResponse 200 message payload.

Definition error (status : Z) (message : string) : Response :=
  mkResponse status message no_payload.

(** [body('vote').isIn(['up', 'down'])] on the [vote] field of the
    request body as the validator sees it, a string: a value that is not
    one is turned into a string first (the empty string when the field is
    absent).  A JSON array, which the validator checks element by
    element, is not a request of this model. *)
Definition validate_vote (raw : string) : option VoteType :=
  if decide (raw = "up") then Some up
  else if decide (raw = "down") then Some down
  else None.

(** ** routes/questions.js *)

Module QuestionRoutes.

(** [POST /api/questions/:id/vote].  [raw] is [req.body.vote], [inserted]
    the outcome of the notification insert. *)
Definition vote (s : Store) (now : Z) (inserted : bool)
    (id : ObjectId) (req_user : User) (raw : string) : Response * Store :=
  match validate_vote raw with
  | None => (mkResponse 400 "Validation failed" validation_errors, s)
  | Some vote =>
      match questions s !! id with
      | None => (error 404 "Question not found", s)
      | Some question =>
          if Question.isDeleted question then (error 404 "Question not found", s)
          else if decide (Question.askedBy question = _id req_user) then
            (error 400 "Cannot vote on your own question", s)
          else
            let question := Question.vote question (_id req_user) vote now in
            let s := save_question s id question in
            let s := try_notify s
              (NotificationService.notifyVoteReceived inserted id item_question
                 (_id req_user) (Question.askedBy question) (username req_user)
                 (bool_decide (vote = up)) (notifications s)) in
            (json "Vote recorded successfully" (votes_payload (Question.votes question)), s)
      end
  end.

End QuestionRoutes.

(** ** routes/answers.js *)

Module AnswerRoutes.

(** [POST /api/answers/:id/vote]. *)
Definition vote (s : Store) (now : Z) (inserted : bool)
    (id : ObjectId) (req_user : User) (raw : string) : Response * Store :=
  match validate_vote raw with
  | None => (mkResponse 400 "Validation failed" validation_errors, s)
  | Some vote =>
      match answers s !! id with
      | None => (error 404 "Answer not found", s)
      | Some answer =>
          if Answer.isDeleted answer then (error 404 "Answer not found", s)
          else if decide (Answer.answeredBy answer = _id req_user) then
            (error 400 "Cannot vote on your own answer", s)
          else
            let answer := Answer.vote answer (_id req_user) vote now in
            let s := save_answer s id answer in
            let s := try_notify s
              (NotificationService.notifyVoteReceived inserted id item_answer
                 (_id req_user) (Answer.answeredBy answer) (username req_user)
                 (bool_decide (vote = up)) (notifications s)) in
            (json "Vote recorded successfully" (votes_payload (Answer.votes answer)), s)
      end
  end.

(** The block under [// Unaccept previously accepted answer if any]. *)
Definition unaccept_previous (s : Store) (question : Question.t) : Store :=
  match Question.acceptedAnswer question with
  | Some previous =>
      match answers s !! previous with
      | Some previousAnswer => save_answer s previous (Answer.unaccept previousAnswer)
      | None => s
      end
  | None => s
  end.

(** [await answer.accept()] on the copy [answer] read at the top of the
    handler.  [this.isAccepted = true] changes the path only when the copy
    holds [false]; [this.save()] then sets [isAccepted] on the stored
    document, and otherwise sends nothing, whatever the stored document
    holds by now. *)
Definition save_accepted (s : Store) (id : ObjectId) (answer : Answer.t) : Store :=
  if Answer.isAccepted answer then s
  else
    match answers s !! id with
    | Some stored => save_answer s id (Answer.accept stored)
    | None => s
    end.

(** [PATCH /api/answers/:id/accept].  [answer] and [question] are the
    copies read at the top of the handler; the copy of the previously
    accepted answer is read, changed and saved on its own. *)
Definition accept (s : Store) (inserted : bool)
    (id : ObjectId) (req_user : User) : Response * Store :=
  match answers s !! id with
  | None => (error 404 "Answer not found", s)
  | Some answer =>
      if Answer.isDeleted answer then (error 404 "Answer not found", s)
      else
        match questions s !! Answer.questionId answer with
        | None => (error 404 "Question not found", s)
        | Some question =>
            if Question.isDeleted question then (error 404 "Question not found", s)
            else if decide (Question.askedBy question ≠ _id req_user) then
              (error 403 "Only the question owner can accept answers", s)
            else
              let s := unaccept_previous s question in
              let s := save_accepted s id answer in
              let answer := Answer.accept answer in
              let question := Question.set_acceptedAnswer question (Some id) in
              let s := save_question s (Answer.questionId answer) question in
              let s := try_notify s
                (NotificationService.notifyAnswerAccepted inserted id
                   (Answer.questionId answer) (Answer.answeredBy answer)
                   (username req_user) (notifications s)) in
              (json "Answer accepted successfully" (answer_payload id answer), s)
        end
  end.

(** [PATCH /api/answers/:id/unaccept]. *)
Definition unaccept (s : Store) (id : ObjectId) (req_user : User) : Response * Store :=
  match answers s !! id with
  | None => (error 404 "Answer not found", s)
  | Some answer =>
      if Answer.isDeleted answer then (error 404 "Answer not found", s)
      else
        match questions s !! Answer.questionId answer with
        | None => (error 404 "Question not found", s)
        | Some question =>
            if Question.isDeleted question then (error 404 "Question not found", s)
            else if decide (Question.askedBy question ≠ _id req_user) then
              (error 403 "Only the question owner can unaccept answers", s)
            else if negb (Answer.isAccepted answer) then
              (error 400 "This answer is not currently accepted", s)
            else
              let answer := Answer.unaccept answer in
              let s := save_answer s id answer in
              let question := Question.set_acceptedAnswer question None in
              let s := save_question s (Answer.questionId answer) question in
              (json "Answer unaccepted successfully" (answer_payload id answer), s)
        end
  end.

(** [DELETE /api/answers/:id]. *)
Definition delete_answer (s : Store) (id : ObjectId) (req_user : User) : Response * Store :=
  match answers s !! id with
  | None => (error 404 "Answer not found", s)
  | Some answer =>
      if Answer.isDeleted answer then (error 404 "Answer not found", s)
      else if bool_decide (Answer.answeredBy answer ≠ _id req_user)
              && bool_decide (role req_user ≠ role_admin) then
        (error 403 "Not authorized to delete this answer", s)
      else if Answer.isAccepted answer then
        (error 400 "Cannot delete an accepted answer", s)
      else
        let s := save_answer s id (Answer.set_isDeleted answer true) in
        (json "Answer deleted successfully" no_payload, s)
  end.

End AnswerRoutes.

(** ** Sequences of acceptance requests *)

Inductive AcceptanceRequest : Type :=
  | accept_request (id : ObjectId) (req_user : User) (inserted : bool)
  | unaccept_request (id : ObjectId) (req_user : User).

Definition handle (s : Store) (r : AcceptanceRequest) : Response * Store :=
  match r with
  | accept_request id req_user inserted => AnswerRoutes.accept s inserted id req_user
  | unaccept_request id req_user => AnswerRoutes.unaccept s id req_user
  end.

(** The store after serving the requests one after the other. *)
Definition serve (s : Store) (rs : list AcceptanceRequest) : Store :=
  foldl (λ s r, (handle s r).2) s rs.

(** ** The acceptance invariant *)

(** [aid] is an answer of question [qid] whose [isAccepted] flag is set. *)
Definition accepted_in (s : Store) (qid aid : ObjectId) : Prop :=
  ∃ a, answers s !! aid = Some a ∧ Answer.questionId a = qid
       ∧ Answer.isAccepted a = true.

(** The pointer of [q] names [aid] exactly when [aid] is an accepted
    answer of the question. *)
Definition question_inv (s : Store) (qid : ObjectId) (q : Question.t) : Prop :=
  ∀ aid, Question.acceptedAnswer q = Some aid ↔ accepted_in s qid aid.

Definition store_inv (s : Store) : Prop :=
  ∀ qid q, questions s !! qid = Some q → question_inv s qid q.

(** The whole store has no accepted answer: every pointer is empty and
    every flag is clear. *)
Definition none_accepted (s : Store) : Prop :=
  map_Forall (λ _ q, Question.acceptedAnswer q = None) (questions s)
  ∧ map_Forall (λ _ a, Answer.isAccepted a = false) (answers s).

(** What the accept route keeps of the invariant: a flagged answer is
    the one its question points to, and a pointer names a stored answer of
    the question.  That the answer pointed to is flagged is the part the
    route can lose. *)
Definition question_weak_inv (s : Store) (qid : ObjectId) (q : Question.t) : Prop :=
  (∀ aid, accepted_in s qid aid → Question.acceptedAnswer q = Some aid)
  ∧ (∀ aid, Question.acceptedAnswer q = Some aid →
       ∃ a, answers s !! aid = Some a ∧ Answer.questionId a = qid).

Definition store_weak_inv (s : Store) : Prop :=
  ∀ qid q, questions s !! qid = Some q → question_weak_inv s qid q.

(** The answers of question [qid] with their flags cleared: what the
    answer collection looks like between the two halves of a change of
    accepted answer. *)
Definition clear_accepted (qid : ObjectId) (a : Answer.t) : Answer.t :=
  if decide (Answer.questionId a = qid) then Answer.unaccept a else a.

(** The ledger invariant: one entry per voter, and the cached score is
    the sum of the entries. *)
Definition ledger_ok (votes : Z) (voteHistory : list VoteEntry) : Prop :=
  NoDup (voters voteHistory) ∧ votes = ledger_sum voteHistory.

Definition question_castVotes (q : Question.t) (cs : list cast) : Question.t :=
  foldl (λ q c, Question.vote q c.1.1 c.1.2 c.2) q cs.

Definition answer_castVotes (a : Answer.t) (cs : list cast) : Answer.t :=
  foldl (λ a c, Answer.vote a c.1.1 c.1.2 c.2) a cs.

(** ** The rest of the question and answer routes *)

(** [body(...).isLength({ min })].  A string is the UTF-8 encoding of
    the text, and [isLength] counts characters, not bytes: the code
    points of the text, less the variation selectors U+FE0E and U+FE0F
    (for JavaScript, [str.length] less the surrogate pairs and the
    selectors). *)

(** A byte [10xxxxxx] continues a code point begun before it. *)
Definition is_continuation (b : Ascii.ascii) : bool :=
  (128 <=? Ascii.nat_of_ascii b)%nat && (Ascii.nat_of_ascii b <? 192)%nat.

Fixpoint code_points (str : string) : nat :=
  match str with
  | EmptyString => 0%nat
  | String b rest => ((if is_continuation b then 0 else 1) + code_points rest)%nat
  end.

(** U+FE0E and U+FE0F are the bytes EF B8 8E and EF B8 8F. *)
Definition starts_with_selector (str : string) : bool :=
  match str with
  | String b1 (String b2 (String b3 _)) =>
      (Ascii.nat_of_ascii b1 =? 239)%nat && (Ascii.nat_of_ascii b2 =? 184)%nat
      && ((Ascii.nat_of_ascii b3 =? 142)%nat || (Ascii.nat_of_ascii b3 =? 143)%nat)
  | _ => false
  end.

Fixpoint variation_selectors (str : string) : nat :=
  match str with
  | EmptyString => 0%nat
  | String b rest =>
      ((if starts_with_selector (String b rest) then 1 else 0)
       + variation_selectors rest)%nat
  end.

(** The length [isLength] compares with its bounds. *)
Definition isLength_len (str : string) : nat :=
  (code_points str - variation_selectors str)%nat.

Definition isLength_min (min : nat) (str : string) : bool :=
  bool_decide (min ≤ isLength_len str)%nat.

(** [NotificationService.notifyQuestionAnswered]. *)
Definition notifyQuestionAnswered (inserted : bool)
    (questionId answerId questionOwnerId answerAuthorId : ObjectId)
    (answerAuthorName : string)
    (ns : list Notification) : option (list Notification) :=
  if decide (questionOwnerId = answerAuthorId) then Some ns
  else
    NotificationService.createNotification inserted
      {| recipientId := questionOwnerId;
         senderId := answerAuthorId;
         type := type_answer;
         n_title := "New Answer";
         n_message := answerAuthorName +:+ " answered your question";
         link := answer_link questionId answerId;
         n_questionId := Some questionId;
         n_answerId := Some answerId |} ns.

Module QuestionCrud.

Definition set_isDeleted (q : Question.t) (b : bool) : Question.t :=
  Question.mk (Question.title q) (Question.description q) (Question.tags q)
    (Question.askedBy q) (Question.votes q) (Question.views q)
    (Question.isClosed q) b (Question.acceptedAnswer q) (Question.voteHistory q).

(** [DELETE /api/questions/:id]. *)
Definition delete_question (s : Store) (id : ObjectId) (req_user : User)
    : Response * Store :=
  match questions s !! id with
  | None => (error 404 "Question not found", s)
  | Some question =>
      if Question.isDeleted question then (error 404 "Question not found", s)
      else if bool_decide (Question.askedBy question ≠ _id req_user)
              && bool_decide (role req_user ≠ role_admin) then
        (error 403 "Not authorized to delete this question", s)
      else
        let s := save_question s id (set_isDeleted question true) in
        (json "Question deleted successfully" no_payload, s)
  end.

(** [POST /api/questions/:id/answers].  [new_id] is the [_id] that
    [new Answer(...)] draws for the document; [_id] is unique in the
    collection, so saving under an [_id] that is taken throws and the
    handler answers 500. *)
Definition post_answer (s : Store) (new_id : ObjectId) (inserted : bool)
    (id : ObjectId) (req_user : User) (content : string) : Response * Store :=
  if negb (isLength_min 30 content) then
    (mkResponse 400 "Validation failed" validation_errors, s)
  else
    match questions s !! id with
    | None => (error 404 "Question not found", s)
    | Some question =>
        if Question.isDeleted question then (error 404 "Question not found", s)
        else if Question.isClosed question then
          (error 400 "This question is closed for answers", s)
        else
          let answer := Answer.create content id (_id req_user) in
          match answers s !! new_id with
          | Some _ => (error 500 "Server error", s)
          | None =>
              let s := save_answer s new_id answer in
              let s := try_notify s
                (notifyQuestionAnswered inserted id new_id
                   (Question.askedBy question) (_id req_user) (username req_user)
                   (notifications s)) in
              (mkResponse 201 "Answer posted successfully"
                 (answer_payload new_id answer), s)
          end
    end.

End QuestionCrud.

Module AnswerCrud.

Definition set_content (a : Answer.t) (content : string) : Answer.t :=
  Answer.mk content (Answer.questionId a) (Answer.answeredBy a) (Answer.votes a)
    (Answer.isAccepted a) (Answer.isDeleted a) (Answer.voteHistory a).

(** [PUT /api/answers/:id]. *)
Definition update_answer (s : Store) (id : ObjectId) (req_user : User)
    (content : string) : Response * Store :=
  if negb (isLength_min 30 content) then
    (mkResponse 400 "Validation failed" validation_errors, s)
  else
    match answers s !! id with
    | None => (error 404 "Answer not found", s)
    | Some answer =>
        if Answer.isDeleted answer then (error 404 "Answer not found", s)
        else if bool_decide (Answer.answeredBy answer ≠ _id req_user)
                && bool_decide (role req_user ≠ role_admin) then
          (error 403 "Not authorized to edit this answer", s)
        else
          let answer := set_content answer content in
          let s := save_answer s id answer in
          (json "Answer updated successfully" (answer_payload id answer), s)
    end.

End AnswerCrud.

(** ** Requests that write to stored questions and answers

    The two vote routes, accept and unaccept, the edit and the deletion of
    an answer, the deletion of a question and the posting of an answer. *)

Inductive Request : Type :=
  | req_vote_question (now : Z) (inserted : bool) (id : ObjectId) (req_user : User)
      (raw : string)
  | req_vote_answer (now : Z) (inserted : bool) (id : ObjectId) (req_user : User)
      (raw : string)
  | req_acceptance (r : AcceptanceRequest)
  | req_update_answer (id : ObjectId) (req_user : User) (content : string)
  | req_delete_answer (id : ObjectId) (req_user : User)
  | req_delete_question (id : ObjectId) (req_user : User)
  | req_post_answer (new_id : ObjectId) (inserted : bool) (id : ObjectId)
      (req_user : User) (content : string).

Definition dispatch (s : Store) (r : Request) : Response * Store :=
  match r with
  | req_vote_question now inserted id u raw => QuestionRoutes.vote s now inserted id u raw
  | req_vote_answer now inserted id u raw => AnswerRoutes.vote s now inserted id u raw
  | req_acceptance r => handle s r
  | req_update_answer id u content => AnswerCrud.update_answer s id u content
  | req_delete_answer id u => AnswerRoutes.delete_answer s id u
  | req_delete_question id u => QuestionCrud.delete_question s id u
  | req_post_answer new_id inserted id u content =>
      QuestionCrud.post_answer s new_id inserted id u content
  end.

(** The store after the requests have been served one after the other. *)
Definition run (s : Store) (rs : list Request) : Store :=
  foldl (λ s r, (dispatch s r).2) s rs.

(** The request asks to accept an answer whose flag is already set. *)
Definition reaccepts (s : Store) (r : Request) : Prop :=
  match r with
  | req_acceptance (accept_request id _ _) =>
      Answer.isAccepted <$> answers s !! id = Some true
  | _ => False
  end.

Global Instance reaccepts_dec s r : Decision (reaccepts s r).
Proof. destruct r as [| |[]| | | |]; simpl; apply _. Defined.

(** No request of the run asks that of the store it meets. *)
Fixpoint never_reaccepts (s : Store) (rs : list Request) : Prop :=
  match rs with
  | [] => True
  | r :: rs => ¬ reaccepts s r ∧ never_reaccepts (dispatch s r).2 rs
  end.

Global Instance never_reaccepts_dec s rs : Decision (never_reaccepts s rs).
Proof. revert s. induction rs as [|r rs IH]; intros s; simpl; apply _. Defined.

(** ** Invariants of the whole store *)

Global Instance ledger_ok_dec (votes : Z) (voteHistory : list VoteEntry) :
  Decision (ledger_ok votes voteHistory).
Proof. unfold ledger_ok. apply _. Defined.

(** Every stored question and answer has its ledger in order. *)
Definition ledgers_ok (s : Store) : Prop :=
  map_Forall (λ _ q, ledger_ok (Question.votes q) (Question.voteHistory q)) (questions s)
  ∧ map_Forall (λ _ a, ledger_ok (Answer.votes a) (Answer.voteHistory a)) (answers s).

(** No author appears in the ledger of the author's own item. *)
Definition no_self_votes (s : Store) : Prop :=
  map_Forall (λ _ q, Question.askedBy q ∉ voters (Question.voteHistory q)) (questions s)
  ∧ map_Forall (λ _ a, Answer.answeredBy a ∉ voters (Answer.voteHistory a)) (answers s).

(** No answer is accepted and soft-deleted at the same time. *)
Definition no_deleted_accepted (s : Store) : Prop :=
  map_Forall (λ _ a, Answer.isDeleted a = true → Answer.isAccepted a = false) (answers s).

(** No vote or answer notification is addressed to its own sender. *)
Definition no_self_notice (n : Notification) : Prop :=
  type n = type_vote ∨ type n = type_answer → recipientId n ≠ senderId n.

(** How one request may change the answer stored under an id: the
    document before (if any) and after. *)
Inductive answer_change : option Answer.t → Answer.t → Prop :=
  | answer_kept a : answer_change (Some a) a
  | answer_voted a u d now :
      Answer.isDeleted a = false → Answer.answeredBy a ≠ u →
      answer_change (Some a) (Answer.vote a u d now)
  | answer_accepted a :
      Answer.isDeleted a = false → answer_change (Some a) (Answer.accept a)
  | answer_unaccepted a : answer_change (Some a) (Answer.unaccept a)
  | answer_edited a content :
      Answer.isDeleted a = false →
      answer_change (Some a) (AnswerCrud.set_content a content)
  | answer_deleted a :
      Answer.isDeleted a = false → Answer.isAccepted a = false →
      answer_change (Some a) (Answer.set_isDeleted a true)
  | answer_posted content qid u : answer_change None (Answer.create content qid u).

(** The same for the question stored under an id; none of the requests
    creates one. *)
Inductive question_change : Question.t → Question.t → Prop :=
  | question_kept q : question_change q q
  | question_voted q u d now :
      Question.isDeleted q = false → Question.askedBy q ≠ u →
      question_change q (Question.vote q u d now)
  | question_pointed q p :
      Question.isDeleted q = false →
      question_change q (Question.set_acceptedAnswer q p)
  | question_deleted q :
      Question.isDeleted q = false →
      question_change q (QuestionCrud.set_isDeleted q true).

(** One request's change of a collection at an id: a document is never
    removed, and a stored one changes as the relations above say. *)
Definition answer_step (before after : option Answer.t) : Prop :=
  match after with
  | Some a' => answer_change before a'
  | None => before = None
  end.

Definition question_step (before after : option Question.t) : Prop :=
  match before, after with
  | Some q, Some q' => question_change q q'
  | None, None => True
  | _, _ => False
  end.

(** The votes cast, as the ledger entries they leave on a new item. *)
Definition entry_of (c : cast) : VoteEntry := mkVoteEntry c.1.1 c.1.2 c.2.

(** What a vote in direction [d] does to the score, by the vote the voter
    holds: a new vote counts once, the same vote is taken back, the
    opposite vote is turned around. *)
Definition score_change (held : option VoteType) (d : VoteType) : Z :=
  match held with
  | None => direction d
  | Some d' => if decide (d' = d) then - direction d else 2 * direction d
  end.

(** The vote a voter holds after voting [d]. *)
Definition held_after (held : option VoteType) (d : VoteType) : option VoteType :=
  if decide (held = Some d) then None else Some d.

(** The voter of a cast. *)
Definition voter (c : cast) : ObjectId := c.1.1.

(** ** The read state of notifications

    [models/Notification.js] and the second half of the notification
    service work on the notification collection keyed by [_id], each
    document carrying the [read] flag beside the data written at
    creation. *)

Module Inbox.

Record doc : Type := mk {
  data : Notification;
  read : bool
}.

(** [Notification.create(data)]: [read] takes its default. *)
Definition create (data : Notification) : doc := mk data false.

(** The filter [{ recipientId: userId, read: false }]. *)
Definition unread_of (userId : ObjectId) (n : doc) : Prop :=
  recipientId (data n) = userId ∧ read n = false.

Global Instance unread_of_dec userId n : Decision (unread_of userId n).
Proof. unfold unread_of. apply _. Defined.

(** [NotificationService.markAsRead]:
    [findOneAndUpdate({ _id, recipientId }, { read: true }, { new: true })],
    the updated document or null. *)
Definition markAsRead (ns : gmap N doc) (notificationId userId : ObjectId)
    : option doc * gmap N doc :=
  match ns !! notificationId with
  | Some n =>
      if decide (recipientId (data n) = userId) then
        (Some (mk (data n) true), <[notificationId := mk (data n) true]> ns)
      else (None, ns)
  | None => (None, ns)
  end.

(** [notificationSchema.statics.markAllAsRead]:
    [updateMany({ recipientId: userId, read: false }, { read: true })]. *)
Definition markAllAsRead (ns : gmap N doc) (userId : ObjectId) : gmap N doc :=
  (λ n, if decide (unread_of userId n) then mk (data n) true else n) <$> ns.

(** [notificationSchema.statics.getUnreadCount]:
    [countDocuments({ recipientId: userId, read: false })]. *)
Definition getUnreadCount (ns : gmap N doc) (userId : ObjectId) : nat :=
  size (filter (λ kv, unread_of userId kv.2) ns).

(** [NotificationService.deleteNotification]:
    [findOneAndDelete({ _id, recipientId })], the deleted document or null. *)
Definition deleteNotification (ns : gmap N doc) (notificationId userId : ObjectId)
    : option doc * gmap N doc :=
  match ns !! notificationId with
  | Some n =>
      if decide (recipientId (data n) = userId) then (Some n, delete notificationId ns)
      else (None, ns)
  | None => (None, ns)
  end.

(** What one user can ask of the collection. *)
Inductive request : Type :=
  | read_one (notificationId : ObjectId)
  | read_all
  | remove (notificationId : ObjectId).

Definition serve_one (userId : ObjectId) (ns : gmap N doc) (r : request) : gmap N doc :=
  match r with
  | read_one notificationId => (markAsRead ns notificationId userId).2
  | read_all => markAllAsRead ns userId
  | remove notificationId => (deleteNotification ns notificationId userId).2
  end.

Definition serve_all (userId : ObjectId) (ns : gmap N doc) (rs : list request)
    : gmap N doc :=
  foldl (serve_one userId) ns rs.

(** The notifications addressed to a user. *)
Definition of_user (userId : ObjectId) (ns : gmap N doc) : gmap N doc :=
  filter (λ kv, recipientId (data kv.2) = userId) ns.

End Inbox.

(** Three notifications: two unread for Bob (2), one unread for Carol (3). *)
Definition inbox : gmap N Inbox.doc :=
  {[ 30%N := Inbox.create
       (mkNotification 2%N 3%N type_vote "Vote Received" "carol upvoted your answer"
          (answer_link 20%N 20%N) None (Some 20%N));
     31%N := Inbox.create
       (mkNotification 2%N 2%N type_accept "Answer Accepted" "alice accepted your answer"
          (answer_link 10%N 20%N) (Some 10%N) (Some 20%N));
     32%N := Inbox.create
       (mkNotification 3%N 4%N type_vote "Vote Received" "dave downvoted your answer"
          (answer_link 21%N 21%N) None (Some 21%N)) ]}.

(** ** A small forum used in the examples

    Alice asks question 10; Bob and Carol answer it (answers 20 and 21). *)

Definition alice : User := mkUser 1%N "alice" role_user.
Definition bob : User := mkUser 2%N "bob" role_user.
Definition carol : User := mkUser 3%N "carol" role_user.

Definition question10 : Question.t :=
  Question.create "How do I undo a vote I cast by mistake?"
    "I upvoted an answer twice and the score went back." ["votes"] 1%N.

Definition answer20 : Answer.t :=
  Answer.create "Casting the same vote again removes it." 10%N 2%N.

Definition answer21 : Answer.t :=
  Answer.create "Vote the other way and the score moves by two." 10%N 3%N.

Definition forum : Store :=
  mkStore {[ 10%N := question10 ]} {[ 20%N := answer20; 21%N := answer21 ]} [].

(** The forum after Alice has accepted Bob's answer. *)
Definition forum_accepted : Store :=
  (AnswerRoutes.accept forum true 20%N alice).2.

(** A store with Alice's question and no answer yet. *)
Definition question_only : Store := mkStore {[ 10%N := question10 ]} ∅ [].

(** Bob's answer after Carol (3) has voted it up and Dave (4) down. *)
Definition answer_two_votes : Answer.t :=
  Answer.vote (Answer.vote answer20 3%N up 100) 4%N down 101.

Definition question_two_votes : Question.t :=
  Question.vote (Question.vote question10 3%N up 100) 4%N down 101.

Definition dave : User := mkUser 4%N "dave" role_admin.

(** A day on the forum: votes, an acceptance, a new answer by Dave, an
    edit, two deletions of answers (the second refused: the answer is
    accepted), a vote taken back, the deletion of the question and a late
    unaccept. *)
Definition forum_traffic : list Request :=
  [ req_vote_answer 1 true 20%N carol "up";
    req_vote_question 2 true 10%N bob "down";
    req_acceptance (accept_request 20%N alice true);
    req_post_answer 22%N true 10%N dave "Ask a moderator to reset the score.";
    req_update_answer 21%N carol "Vote the other way: the score moves by two.";
    req_delete_answer 21%N carol;
    req_delete_answer 20%N bob;
    req_vote_answer 3 false 20%N carol "up";
    req_delete_question 10%N alice;
    req_acceptance (unaccept_request 20%N alice) ].

(** Alice accepts Bob's answer twice, Carol votes for it, and Alice
    accepts Carol's answer. *)
Definition reaccept_traffic : list Request :=
  [ req_acceptance (accept_request 20%N alice true);
    req_acceptance (accept_request 20%N alice true);
    req_vote_answer 1 true 20%N carol "up";
    req_acceptance (accept_request 21%N alice true) ].

(** Alice's question and Bob's answer after Carol has voted each of them
    down at time 100. *)
Definition question_voted_down : Question.t := Question.vote question10 3%N down 100.

Definition answer_voted_down : Answer.t := Answer.vote answer20 3%N down 100.

(** * Properties *)

(** ** The vote ledger *)

Section ledger.

Implicit Types (votes now : Z) (h : list VoteEntry) (u v : ObjectId) (d : VoteType).

Lemma ledger_sum_app h1 h2 : ledger_sum (h1 ++ h2) = ledger_sum h1 + ledger_sum h2.
Proof. induction h1 as [|e h1 IH]; simpl; [done | rewrite IH; lia]. Qed.

Lemma ledger_sum_split h i e :
  h !! i = Some e →
  ledger_sum h = ledger_sum (take i h) + direction (vote e) + ledger_sum (drop (S i) h).
Proof.
  intros Hi. rewrite <- (take_drop_middle h i e Hi) at 1.
  rewrite ledger_sum_app. simpl. lia.
Qed.

Lemma ledger_sum_delete h i e :
  h !! i = Some e → ledger_sum (delete i h) = ledger_sum h - direction (vote e).
Proof.
  intros Hi. rewrite (ledger_sum_split h i e Hi), delete_take_drop, ledger_sum_app. lia.
Qed.

Lemma ledger_sum_insert h i e e' :
  h !! i = Some e →
  ledger_sum (<[i := e']> h) = ledger_sum h - direction (vote e) + direction (vote e').
Proof.
  intros Hi. rewrite (ledger_sum_split h i e Hi).
  rewrite insert_take_drop by (by eapply lookup_lt_Some).
  rewrite ledger_sum_app. simpl. lia.
Qed.

Lemma voters_insert_same h i e e' :
  h !! i = Some e → user e' = user e → voters (<[i := e']> h) = voters h.
Proof.
  intros Hi Hu. unfold voters. rewrite list_fmap_insert, Hu.
  apply list_insert_id. by rewrite list_lookup_fmap, Hi.
Qed.

Lemma direction_flip d d' : d' ≠ d → direction d' = - direction d.
Proof. by destruct d, d'. Qed.

(** What [list_find] says about the first entry of a voter. *)
Lemma find_entry h u i e :
  list_find (λ x, user x = u) h = Some (i, e) → h !! i = Some e ∧ user e = u.
Proof. intros (? & ? & _)%list_find_Some. done. Qed.

Lemma find_no_entry h u :
  list_find (λ x, user x = u) h = None → u ∉ voters h.
Proof.
  intros Hn%list_find_None. unfold voters. intros (e & -> & He)%list_elem_of_fmap.
  by eapply (proj1 (Forall_forall _ _) Hn).
Qed.

(** One call keeps the ledger invariant. *)
Lemma vote_body_ledger_ok votes h u d now :
  ledger_ok votes h →
  ledger_ok (vote_body votes h u d now).1 (vote_body votes h u d now).2.
Proof.
  intros [Hnd ->]. unfold vote_body.
  destruct (list_find _ h) as [[i e]|] eqn:Hf.
  - apply find_entry in Hf as [Hi Hu].
    destruct (decide (vote e = d)) as [Hd|Hd]; simpl; split.
    + apply (sublist_NoDup _ (voters h)); [exact Hnd|].
      unfold voters. rewrite list_fmap_delete. apply sublist_delete.
    + rewrite (ledger_sum_delete h i e Hi). by destruct (vote e).
    + by rewrite (voters_insert_same h i e).
    + rewrite (ledger_sum_insert h i e _ Hi). simpl.
      rewrite (direction_flip d (vote e) Hd). destruct d; simpl; lia.
  - simpl; split.
    + unfold voters. rewrite fmap_app. apply NoDup_app. split; [done|].
      split; [|apply NoDup_singleton].
      intros x Hx ->%list_elem_of_singleton. by eapply find_no_entry.
    + rewrite ledger_sum_app. simpl. destruct d; simpl; lia.
Qed.

Lemma question_castVotes_ledger_ok q cs :
  ledger_ok (Question.votes q) (Question.voteHistory q) →
  ledger_ok (Question.votes (question_castVotes q cs))
            (Question.voteHistory (question_castVotes q cs)).
Proof.
  revert q. induction cs as [|[[u d] now] cs IH]; intros q Hq; [done|].
  simpl. apply IH. by apply vote_body_ledger_ok.
Qed.

Lemma answer_castVotes_ledger_ok a cs :
  ledger_ok (Answer.votes a) (Answer.voteHistory a) →
  ledger_ok (Answer.votes (answer_castVotes a cs))
            (Answer.voteHistory (answer_castVotes a cs)).
Proof.
  revert a. induction cs as [|[[u d] now] cs IH]; intros a Ha; [done|].
  simpl. apply IH. by apply vote_body_ledger_ok.
Qed.

End ledger.

Section toggle.

Implicit Types (votes now : Z) (h : list VoteEntry) (u v : ObjectId) (d : VoteType).

Lemma delete_appended h (e : VoteEntry) : delete (length h) (h ++ [e]) = h.
Proof. induction h as [|x h IH]; simpl; [done | by rewrite IH]. Qed.

Lemma find_appended h v d now :
  list_find (λ x, user x = v) h = None →
  list_find (λ x, user x = v) (h ++ [mkVoteEntry v d now])
  = Some (length h, mkVoteEntry v d now).
Proof.
  intros Hn. rewrite (list_find_app_r _ _ _ Hn). simpl.
  by rewrite decide_True.
Qed.

Lemma getUserVote_body_None h v :
  getUserVote_body h v = None ↔ list_find (λ x, user x = v) h = None.
Proof.
  unfold getUserVote_body. by destruct (list_find _ h) as [[i e]|].
Qed.

Lemma getUserVote_body_Some h v d :
  getUserVote_body h v = Some d ↔
  ∃ i e, list_find (λ x, user x = v) h = Some (i, e) ∧ vote e = d.
Proof.
  unfold getUserVote_body. destruct (list_find _ h) as [[i e]|]; split.
  - intros [= <-]. eauto.
  - by intros (? & ? & [= <- <-] & <-).
  - done.
  - by intros (? & ? & ? & _).
Qed.

(** A first vote followed by the same vote gives back the very ledger
    the voter found. *)
Lemma vote_body_twice votes h v d n1 n2 :
  getUserVote_body h v = None →
  vote_body (vote_body votes h v d n1).1 (vote_body votes h v d n1).2 v d n2
  = (votes, h).
Proof.
  intros Hn%getUserVote_body_None. unfold vote_body at 2 3. rewrite Hn. simpl.
  unfold vote_body. rewrite (find_appended h v d n1 Hn). simpl.
  rewrite decide_True by done. rewrite delete_appended.
  f_equal. destruct d; simpl; lia.
Qed.

(** The entry found for a voter who changes direction is overwritten in
    place and the score moves by two. *)
Lemma vote_body_change votes h v d now :
  getUserVote_body h v = Some (opposite d) →
  ∃ i e, list_find (λ x, user x = v) h = Some (i, e)
    ∧ vote_body votes h v d now
      = (votes + 2 * direction d, <[i := mkVoteEntry v d now]> h).
Proof.
  intros (i & e & Hf & Hd)%getUserVote_body_Some. exists i, e. split; [done|].
  unfold vote_body. rewrite Hf. destruct (find_entry h v i e Hf) as [_ ->].
  rewrite decide_False by (rewrite Hd; by destruct d).
  f_equal. by destruct d.
Qed.

Lemma getUserVote_body_insert h v d now i e :
  list_find (λ x, user x = v) h = Some (i, e) →
  getUserVote_body (<[i := mkVoteEntry v d now]> h) v = Some d.
Proof.
  intros Hf. apply getUserVote_body_Some. exists i, (mkVoteEntry v d now).
  split; [|done]. apply list_find_Some in Hf as (Hi & Hu & Hlt).
  apply list_find_Some. split_and!.
  - apply list_lookup_insert_eq. by eapply lookup_lt_Some.
  - done.
  - intros j y Hj Hji. rewrite list_lookup_insert_ne in Hj by lia. by eapply Hlt.
Qed.

End toggle.

(** ** Acceptance *)

Section acceptance.

Implicit Types (s : Store) (qs : gmap N Question.t) (ans : gmap N Answer.t)
  (ns : list Notification) (q : Question.t) (a : Answer.t) (id qid aid : ObjectId).

Lemma questions_try_notify s o : questions (try_notify s o) = questions s.
Proof. by destruct o. Qed.

Lemma answers_try_notify s o : answers (try_notify s o) = answers s.
Proof. by destruct o. Qed.

Lemma store_inv_ext s s' :
  questions s' = questions s → answers s' = answers s → store_inv s → store_inv s'.
Proof.
  intros Hq Ha Hinv qid q Hl aid. rewrite Hq in Hl.
  rewrite (Hinv qid q Hl aid). unfold accepted_in. by rewrite Ha.
Qed.

Lemma none_accepted_store_inv s : none_accepted s → store_inv s.
Proof.
  intros [Hq Ha] qid q Hl aid. split.
  - intros Hp. by rewrite (Hq qid q Hl) in Hp.
  - intros (a & Hla & _ & Hf). by rewrite (Ha aid a Hla) in Hf.
Qed.

Lemma questionId_clear_accepted qid a :
  Answer.questionId (clear_accepted qid a) = Answer.questionId a.
Proof. unfold clear_accepted. by case_decide. Qed.

Lemma accept_clear_accepted qid a :
  Answer.accept (clear_accepted qid a) = Answer.accept a.
Proof. unfold clear_accepted. by case_decide. Qed.

Lemma unaccept_unflagged a : Answer.isAccepted a = false → Answer.unaccept a = a.
Proof. destruct a; simpl; by intros ->. Qed.

(** Under the invariant at most one answer of a question is flagged. *)
Lemma accepted_in_unique s qid q aid1 aid2 :
  question_inv s qid q → accepted_in s qid aid1 → accepted_in s qid aid2 → aid1 = aid2.
Proof.
  intros Hinv H1%Hinv H2%Hinv. congruence.
Qed.

(** AcceptedAnswer(X) → NoneAccepted: clearing a question's pointer and
    the flags of its answers. *)
Lemma store_inv_clear qs ans ns qid q :
  store_inv (mkStore qs ans ns) → qs !! qid = Some q →
  store_inv (mkStore (<[qid := Question.set_acceptedAnswer q None]> qs)
                     (clear_accepted qid <$> ans) ns).
Proof.
  intros Hinv Hq qid' q' Hq' aid. simpl in Hq'.
  destruct (decide (qid' = qid)) as [->|Hne].
  - rewrite lookup_insert_eq in Hq'. injection Hq' as <-. simpl.
    split; [done|]. intros (x & Hx & Hxq & Hxf). simpl in Hx.
    rewrite lookup_fmap in Hx. destruct (ans !! aid) as [a|]; [|done].
    injection Hx as <-. unfold clear_accepted in Hxq, Hxf.
    case_decide; simpl in *; congruence.
  - rewrite lookup_insert_ne in Hq' by done.
    rewrite (Hinv qid' q' Hq' aid). unfold accepted_in. simpl.
    rewrite lookup_fmap. split.
    + intros (x & Hx & Hxq & Hxf). exists x. rewrite Hx. simpl.
      unfold clear_accepted. by rewrite decide_False by congruence.
    + intros (x & Hx & Hxq & Hxf). destruct (ans !! aid) as [a|]; [|done].
      injection Hx as <-. rewrite questionId_clear_accepted in Hxq.
      unfold clear_accepted in Hxf. rewrite decide_False in Hxf by congruence.
      by exists a.
Qed.

(** NoneAccepted → AcceptedAnswer(X). *)
Lemma store_inv_accept_fresh qs ans ns qid q id a :
  store_inv (mkStore qs ans ns) → qs !! qid = Some q →
  Question.acceptedAnswer q = None →
  ans !! id = Some a → Answer.questionId a = qid →
  store_inv (mkStore (<[qid := Question.set_acceptedAnswer q (Some id)]> qs)
                     (<[id := Answer.accept a]> ans) ns).
Proof.
  intros Hinv Hq Hp Ha Haq qid' q' Hq' aid. simpl in Hq'.
  destruct (decide (qid' = qid)) as [->|Hne].
  - rewrite lookup_insert_eq in Hq'. injection Hq' as <-. simpl. split.
    + intros [= <-]. exists (Answer.accept a). simpl.
      by rewrite lookup_insert_eq.
    + intros (x & Hx & Hxq & Hxf). simpl in Hx.
      destruct (decide (id = aid)) as [->|Hid]; [done|].
      rewrite lookup_insert_ne in Hx by done.
      assert (Question.acceptedAnswer q = Some aid) as Hc; [|congruence].
      apply (Hinv qid q Hq aid). by exists x.
  - rewrite lookup_insert_ne in Hq' by done.
    rewrite (Hinv qid' q' Hq' aid). unfold accepted_in. simpl.
    destruct (decide (id = aid)) as [->|Hid].
    + rewrite lookup_insert_eq, Ha. split.
      * intros (x & [= <-] & Hxq & _). congruence.
      * intros (x & [= <-] & Hxq & _). simpl in Hxq. congruence.
    + by rewrite lookup_insert_ne by done.
Qed.

(** What [unaccept_previous] does to the collection when the invariant
    holds: it clears the flags of the question's answers. *)
Lemma unaccept_previous_answers s qid q :
  store_inv s → questions s !! qid = Some q →
  answers (AnswerRoutes.unaccept_previous s q) = clear_accepted qid <$> answers s.
Proof.
  intros Hinv Hq. pose proof (Hinv qid q Hq) as Hqi.
  assert (∀ aid a, answers s !! aid = Some a →
            Question.acceptedAnswer q ≠ Some aid → clear_accepted qid a = a) as Hrest.
  { intros aid a Ha Hp. unfold clear_accepted. case_decide; [|done].
    apply unaccept_unflagged. destruct (Answer.isAccepted a) eqn:Hf; [|done].
    destruct Hp. apply Hqi. by exists a. }
  apply map_eq. intros aid. rewrite lookup_fmap. unfold AnswerRoutes.unaccept_previous.
  destruct (Question.acceptedAnswer q) as [p|] eqn:Hp.
  - destruct (proj1 (Hqi p) Hp) as (pa & Hpa & Hpq & Hpf). rewrite Hpa. simpl.
    destruct (decide (p = aid)) as [->|Hne].
    + rewrite lookup_insert_eq, Hpa. simpl. unfold clear_accepted.
      by rewrite decide_True.
    + rewrite lookup_insert_ne by done.
      destruct (answers s !! aid) as [a|] eqn:Ha; [|done]. simpl.
      rewrite (Hrest aid a Ha); [done | congruence].
  - destruct (answers s !! aid) as [a|] eqn:Ha; [|done]. simpl.
    by rewrite (Hrest aid a Ha).
Qed.

Lemma questions_unaccept_previous s q :
  questions (AnswerRoutes.unaccept_previous s q) = questions s.
Proof.
  unfold AnswerRoutes.unaccept_previous.
  destruct (Question.acceptedAnswer q) as [p|]; [|done].
  by destruct (answers s !! p).
Qed.

Lemma questions_save_accepted s id a :
  questions (AnswerRoutes.save_accepted s id a) = questions s.
Proof.
  unfold AnswerRoutes.save_accepted. destruct (Answer.isAccepted a); [done|].
  by destruct (answers s !! id).
Qed.

Lemma notifications_save_accepted s id a :
  notifications (AnswerRoutes.save_accepted s id a) = notifications s.
Proof.
  unfold AnswerRoutes.save_accepted. destruct (Answer.isAccepted a); [done|].
  by destruct (answers s !! id).
Qed.

Lemma answers_save_accepted s id a stored :
  answers s !! id = Some stored →
  answers (AnswerRoutes.save_accepted s id a)
  = if Answer.isAccepted a then answers s
    else <[id := Answer.accept stored]> (answers s).
Proof.
  intros Hs. unfold AnswerRoutes.save_accepted.
  destruct (Answer.isAccepted a); [done|]. by rewrite Hs.
Qed.

(** Accepting an answer whose flag is clear keeps the invariant. *)
Lemma accept_store_inv_unflagged s inserted id u :
  store_inv s → Answer.isAccepted <$> answers s !! id ≠ Some true →
  store_inv (AnswerRoutes.accept s inserted id u).2.
Proof.
  intros Hinv Hflag. unfold AnswerRoutes.accept.
  destruct (answers s !! id) as [a|] eqn:Ha; [|done].
  destruct (Answer.isDeleted a); [done|].
  destruct (questions s !! Answer.questionId a) as [q|] eqn:Hq; [|done].
  destruct (Question.isDeleted q); [done|].
  case_decide; [done|]. cbn [snd].
  destruct (Answer.isAccepted a) eqn:Hf;
    [exfalso; apply Hflag; simpl; by rewrite Hf|].
  set (qid := Answer.questionId a) in *.
  apply (store_inv_ext
    (mkStore (<[qid := Question.set_acceptedAnswer
                         (Question.set_acceptedAnswer q None) (Some id)]>
                (<[qid := Question.set_acceptedAnswer q None]> (questions s)))
             (<[id := Answer.accept (clear_accepted qid a)]>
                (clear_accepted qid <$> answers s))
             (notifications s))).
  - rewrite questions_try_notify. simpl.
    by rewrite questions_save_accepted, questions_unaccept_previous, insert_insert_eq.
  - rewrite answers_try_notify. simpl.
    rewrite (answers_save_accepted _ id a (clear_accepted qid a)), Hf.
    + by rewrite (unaccept_previous_answers s qid q Hinv Hq).
    + by rewrite (unaccept_previous_answers s qid q Hinv Hq), lookup_fmap, Ha.
  - apply store_inv_accept_fresh.
    + apply store_inv_clear; [by destruct s | done].
    + by rewrite lookup_insert_eq.
    + done.
    + by rewrite lookup_fmap, Ha.
    + apply questionId_clear_accepted.
Qed.

Lemma unaccept_store_inv s id u :
  store_inv s → store_inv (AnswerRoutes.unaccept s id u).2.
Proof.
  intros Hinv. unfold AnswerRoutes.unaccept.
  destruct (answers s !! id) as [a|] eqn:Ha; [|done].
  destruct (Answer.isDeleted a); [done|].
  destruct (questions s !! Answer.questionId a) as [q|] eqn:Hq; [|done].
  destruct (Question.isDeleted q); [done|].
  case_decide; [done|].
  destruct (Answer.isAccepted a) eqn:Hf; [|done]. cbn [negb snd].
  set (qid := Answer.questionId a) in *.
  assert (Question.acceptedAnswer q = Some id) as Hp.
  { apply (Hinv qid q Hq id). by exists a. }
  apply (store_inv_ext
    (mkStore (<[qid := Question.set_acceptedAnswer q None]> (questions s))
             (clear_accepted qid <$> answers s) (notifications s))).
  - done.
  - simpl. rewrite <- (unaccept_previous_answers s qid q Hinv Hq).
    unfold AnswerRoutes.unaccept_previous. by rewrite Hp, Ha.
  - apply store_inv_clear; [by destruct s | done].
Qed.

End acceptance.

(** ** What the vote routes do *)

Section vote_routes.

Implicit Types (s : Store) (id : ObjectId) (u : User) (raw : string) (d : VoteType).

(** A validated vote of somebody else on a live question is recorded by
    [Question.vote] and answered with the new score, whatever happens to
    the notification. *)
Lemma question_vote_recorded s now inserted id u raw d question :
  validate_vote raw = Some d →
  questions s !! id = Some question →
  Question.isDeleted question = false →
  Question.askedBy question ≠ _id u →
  let voted := Question.vote question (_id u) d now in
  (QuestionRoutes.vote s now inserted id u raw).1
  = json "Vote recorded successfully" (votes_payload (Question.votes voted))
  ∧ questions (QuestionRoutes.vote s now inserted id u raw).2
    = <[id := voted]> (questions s)
  ∧ answers (QuestionRoutes.vote s now inserted id u raw).2 = answers s.
Proof.
  intros Hv Hq Hd Hown. unfold QuestionRoutes.vote.
  rewrite Hv, Hq, Hd, decide_False by done. cbn zeta. cbn [fst snd].
  by rewrite questions_try_notify, answers_try_notify.
Qed.

Lemma answer_vote_recorded s now inserted id u raw d answer :
  validate_vote raw = Some d →
  answers s !! id = Some answer →
  Answer.isDeleted answer = false →
  Answer.answeredBy answer ≠ _id u →
  let voted := Answer.vote answer (_id u) d now in
  (AnswerRoutes.vote s now inserted id u raw).1
  = json "Vote recorded successfully" (votes_payload (Answer.votes voted))
  ∧ answers (AnswerRoutes.vote s now inserted id u raw).2
    = <[id := voted]> (answers s)
  ∧ questions (AnswerRoutes.vote s now inserted id u raw).2 = questions s.
Proof.
  intros Hv Ha Hd Hown. unfold AnswerRoutes.vote.
  rewrite Hv, Ha, Hd, decide_False by done. cbn zeta. cbn [fst snd].
  by rewrite questions_try_notify, answers_try_notify.
Qed.

(** A vote request by the author never succeeds and never writes, also
    when the item is soft-deleted (404) or the direction malformed (400
    "Validation failed"): those checks come first. *)
Lemma question_self_vote_never_recorded s now inserted id u raw question :
  questions s !! id = Some question →
  Question.askedBy question = _id u →
  400 ≤ status (QuestionRoutes.vote s now inserted id u raw).1
  ∧ (QuestionRoutes.vote s now inserted id u raw).2 = s.
Proof.
  intros Hq Hown. unfold QuestionRoutes.vote. rewrite Hq.
  destruct (validate_vote raw); [|done].
  destruct (Question.isDeleted question); [done|].
  by rewrite decide_True.
Qed.

Lemma answer_self_vote_never_recorded s now inserted id u raw answer :
  answers s !! id = Some answer →
  Answer.answeredBy answer = _id u →
  400 ≤ status (AnswerRoutes.vote s now inserted id u raw).1
  ∧ (AnswerRoutes.vote s now inserted id u raw).2 = s.
Proof.
  intros Ha Hown. unfold AnswerRoutes.vote. rewrite Ha.
  destruct (validate_vote raw); [|done].
  destruct (Answer.isDeleted answer); [done|].
  by rewrite decide_True.
Qed.

End vote_routes.

Section toggle_cases.

Implicit Types (votes : Z) (h : list VoteEntry) (v : ObjectId) (d : VoteType).

(** The other two ways a pair of equal votes can go: from an entry with
    the same direction the pair removes the entry and adds it anew at the
    end; from an entry with the opposite direction it changes the entry
    and then removes it, which leaves the score [direction d] above where
    it started when the ledger is in order. *)
Lemma vote_body_twice_from_same votes h v d n1 n2 i e :
  list_find (λ x, user x = v) h = Some (i, e) → vote e = d →
  NoDup (voters h) →
  vote_body (vote_body votes h v d n1).1 (vote_body votes h v d n1).2 v d n2
  = (votes, delete i h ++ [mkVoteEntry v d n2]).
Proof.
  intros Hf Hd Hnd. unfold vote_body at 2 3. rewrite Hf, decide_True by done.
  cbn [fst snd]. destruct (find_entry h v i e Hf) as [Hi Hu].
  assert (list_find (λ x, user x = v) (delete i h) = None) as Hgone.
  { apply list_find_None, Forall_forall. intros x Hx Hxu.
    apply list_elem_of_lookup in Hx as [j Hj].
    unfold voters in Hnd. rewrite NoDup_alt in Hnd.
    destruct (decide (j < i)%nat).
    - rewrite list_lookup_delete_lt in Hj by done.
      assert (j = i); [|lia].
      apply (Hnd j i v); rewrite list_lookup_fmap, ?Hj, ?Hi; simpl; by f_equal.
    - rewrite list_lookup_delete_ge in Hj by lia.
      assert (S j = i); [|lia].
      apply (Hnd (S j) i v); rewrite list_lookup_fmap, ?Hj, ?Hi; simpl; by f_equal. }
  unfold vote_body. rewrite Hgone. f_equal. rewrite Hd. destruct d; simpl; lia.
Qed.

Lemma vote_body_twice_from_opposite votes h v d n1 n2 :
  getUserVote_body h v = Some (opposite d) →
  (vote_body (vote_body votes h v d n1).1 (vote_body votes h v d n1).2 v d n2).1
  = votes + direction d
  ∧ getUserVote_body (vote_body votes h v d n1).2 v = Some d.
Proof.
  intros Ho. destruct (vote_body_change votes h v d n1 Ho) as (i & e & Hf & ->).
  cbn [fst snd]. pose proof (getUserVote_body_insert h v d n1 i e Hf) as Hg.
  split; [|done]. apply getUserVote_body_Some in Hg as (j & e' & Hf' & Hd').
  unfold vote_body. rewrite Hf', decide_True by done. cbn [fst].
  rewrite Hd'. destruct d; simpl; lia.
Qed.

End toggle_cases.

(** * The claims *)

(** ** C2 *)

(** C2. Whatever sequence of votes is cast on a freshly created question or
    answer (score 0, empty [voteHistory]), the resulting [voteHistory] holds
    at most one entry per voter and the resulting [votes] is the sum of the
    entries' directions. *)
Theorem castVote_sequence_keeps_ledger
    (cs : list cast) (title description content : string) (tags : list string)
    (askedBy questionId answeredBy : ObjectId) :
  let q := question_castVotes (Question.create title description tags askedBy) cs in
  let a := answer_castVotes (Answer.create content questionId answeredBy) cs in
  (NoDup (voters (Question.voteHistory q))
   ∧ Question.votes q = ledger_sum (Question.voteHistory q))
  ∧ (NoDup (voters (Answer.voteHistory a))
     ∧ Answer.votes a = ledger_sum (Answer.voteHistory a)).
Proof.
  simpl. split.
  - apply question_castVotes_ledger_ok. split; [constructor | done].
  - apply answer_castVotes_ledger_ok. split; [constructor | done].
Qed.

(** ** C4 *)

(** C4, as stated, fails: Carol has voted Alice's question down (score
    -1); voting up twice then changes her vote and toggles it off, which
    leaves the score at 0, not at -1. *)
Lemma toggle_twice_after_opposite_vote :
  let q := question_voted_down in
  let q2 := Question.vote (Question.vote q 3%N up 101) 3%N up 102 in
  Question.votes q = -1 ∧ Question.votes q2 = 0
  ∧ ¬ (Question.votes q2 = Question.votes q ∧ Question.getUserVote q2 3%N = None).
Proof. split_and!; [reflexivity | reflexivity | by intros [[=] _]]. Qed.

(** C4, amended. When voter [v] has no entry in the ledger, casting the
    same direction twice in a row gives back the score from before the
    first vote and leaves [v] without an entry; the [voteHistory] is the
    one from before the first vote. *)
Theorem toggle_off_restores_item
    (q : Question.t) (a : Answer.t) (v : ObjectId) (d : VoteType) (n1 n2 : Z) :
  Question.getUserVote q v = None →
  Answer.getUserVote a v = None →
  let q2 := Question.vote (Question.vote q v d n1) v d n2 in
  let a2 := Answer.vote (Answer.vote a v d n1) v d n2 in
  (Question.votes q2 = Question.votes q ∧ Question.getUserVote q2 v = None
   ∧ Question.voteHistory q2 = Question.voteHistory q)
  ∧ (Answer.votes a2 = Answer.votes a ∧ Answer.getUserVote a2 v = None
     ∧ Answer.voteHistory a2 = Answer.voteHistory a).
Proof.
  intros Hq Ha. unfold Question.getUserVote, Answer.getUserVote in *.
  unfold Question.vote, Answer.vote. simpl.
  rewrite (vote_body_twice _ _ v d n1 n2 Hq), (vote_body_twice _ _ v d n1 n2 Ha).
  done.
Qed.

Lemma toggle_off_restores_item_witness :
  let q := question_voted_down in
  let a := answer_voted_down in
  let q2 := Question.vote (Question.vote q 7%N up 101) 7%N up 102 in
  let a2 := Answer.vote (Answer.vote a 7%N up 101) 7%N up 102 in
  (Question.votes q2 = Question.votes q ∧ Question.getUserVote q2 7%N = None
   ∧ Question.voteHistory q2 = Question.voteHistory q)
  ∧ (Answer.votes a2 = Answer.votes a ∧ Answer.getUserVote a2 7%N = None
     ∧ Answer.voteHistory a2 = Answer.voteHistory a).
Proof.
  apply (toggle_off_restores_item question_voted_down answer_voted_down 7%N up 101 102);
    reflexivity.
Defined.

(** ** C5 *)

(** C5. When the entry found for voter [v] has the opposite direction,
    [vote] overwrites that entry with the new direction (same position,
    same voter) and moves the score by [2 * direction]: +2 for up, -2 for
    down. *)
Theorem opposite_vote_replaces_entry
    (q : Question.t) (a : Answer.t) (v : ObjectId) (d : VoteType) (now : Z) :
  Question.getUserVote q v = Some (opposite d) →
  Answer.getUserVote a v = Some (opposite d) →
  let q' := Question.vote q v d now in
  let a' := Answer.vote a v d now in
  (Question.votes q' = Question.votes q + 2 * direction d
   ∧ Question.getUserVote q' v = Some d
   ∧ ∃ i e, Question.voteHistory q !! i = Some e ∧ user e = v ∧ vote e = opposite d
       ∧ Question.voteHistory q' = <[i := mkVoteEntry v d now]> (Question.voteHistory q))
  ∧ (Answer.votes a' = Answer.votes a + 2 * direction d
     ∧ Answer.getUserVote a' v = Some d
     ∧ ∃ i e, Answer.voteHistory a !! i = Some e ∧ user e = v ∧ vote e = opposite d
         ∧ Answer.voteHistory a' = <[i := mkVoteEntry v d now]> (Answer.voteHistory a)).
Proof.
  intros Hq Ha. unfold Question.getUserVote, Answer.getUserVote in *.
  unfold Question.vote, Answer.vote. simpl.
  destruct (vote_body_change (Question.votes q) _ v d now Hq) as (i & e & Hf & ->).
  destruct (vote_body_change (Answer.votes a) _ v d now Ha) as (j & e' & Hf' & ->).
  simpl. split; (split; [done|]); (split; [by eapply getUserVote_body_insert|]).
  - exists i, e. destruct (find_entry _ _ _ _ Hf) as [Hi Hu].
    apply getUserVote_body_Some in Hq as (? & ? & Hf2 & Hd).
    rewrite Hf in Hf2. by injection Hf2 as <- <-.
  - exists j, e'. destruct (find_entry _ _ _ _ Hf') as [Hi Hu].
    apply getUserVote_body_Some in Ha as (? & ? & Hf2 & Hd).
    rewrite Hf' in Hf2. by injection Hf2 as <- <-.
Qed.

Lemma opposite_vote_replaces_entry_witness :
  Question.votes (Question.vote question_voted_down 3%N up 101) = 1
  ∧ Question.voteHistory (Question.vote question_voted_down 3%N up 101)
    = [mkVoteEntry 3%N up 101]
  ∧ Answer.votes (Answer.vote answer_voted_down 3%N up 101) = 1.
Proof.
  destruct (opposite_vote_replaces_entry question_voted_down answer_voted_down
              3%N up 101) as [(Hq & _) (Ha & _)]; [reflexivity | reflexivity |].
  split_and!; [exact Hq | reflexivity | exact Ha].
Defined.

(** ** C8 *)

(** C8. On a freshly created question, [u1] up, [u2] down, [u1] down,
    [u1] down give the scores 1, 0, -2 and -1, and the ledger ends with
    the entry of [u2] alone. *)
Theorem concrete_vote_scenario
    (u1 u2 : ObjectId) (t1 t2 t3 t4 : Z)
    (title description : string) (tags : list string) (askedBy : ObjectId) :
  u1 ≠ u2 →
  let q0 := Question.create title description tags askedBy in
  let q1 := Question.vote q0 u1 up t1 in
  let q2 := Question.vote q1 u2 down t2 in
  let q3 := Question.vote q2 u1 down t3 in
  let q4 := Question.vote q3 u1 down t4 in
  Question.votes q1 = 1 ∧ Question.votes q2 = 0 ∧ Question.votes q3 = -2
  ∧ Question.votes q4 = -1
  ∧ Question.voteHistory q4 = [mkVoteEntry u2 down t2].
Proof.
  intros Hne. unfold Question.vote, vote_body. simpl.
  repeat (first [ rewrite (decide_True (P := u1 = u1)) by done
                | rewrite (decide_False (P := u1 = u2)) by done ]; simpl).
  done.
Qed.

Lemma concrete_vote_scenario_witness :
  let q4 := Question.vote (Question.vote (Question.vote (Question.vote question10
              2%N up 1) 3%N down 2) 2%N down 3) 2%N down 4 in
  Question.votes q4 = -1 ∧ Question.voteHistory q4 = [mkVoteEntry 3%N down 2].
Proof.
  destruct (concrete_vote_scenario 2%N 3%N 1 2 3 4
              (Question.title question10) (Question.description question10)
              (Question.tags question10) (Question.askedBy question10))
    as (_ & _ & _ & H4 & Hh); [done|].
  exact (conj H4 Hh).
Defined.

(** ** C6 *)

(** C6. A vote request by the author of a (found, not soft-deleted)
    question is answered with 400 "Cannot vote on your own question", and
    one by the author of a (found, not soft-deleted) answer with 400
    "Cannot vote on your own answer"; either way the store, hence the
    item's [votes] and [voteHistory], is left as it was, whatever the
    item's score and ledger and whatever else the store holds. *)
Theorem self_vote_rejected
    (s : Store) (now : Z) (inserted : bool) (raw : string) (d : VoteType) :
  validate_vote raw = Some d →
  (∀ (qid : ObjectId) (question : Question.t) (asker : User),
     questions s !! qid = Some question →
     Question.isDeleted question = false →
     Question.askedBy question = _id asker →
     QuestionRoutes.vote s now inserted qid asker raw
     = (error 400 "Cannot vote on your own question", s))
  ∧ (∀ (aid : ObjectId) (answer : Answer.t) (answerer : User),
       answers s !! aid = Some answer →
       Answer.isDeleted answer = false →
       Answer.answeredBy answer = _id answerer →
       AnswerRoutes.vote s now inserted aid answerer raw
       = (error 400 "Cannot vote on your own answer", s)).
Proof.
  intros Hv. split.
  - intros qid question asker Hq Hqd Hqa. unfold QuestionRoutes.vote.
    rewrite Hv, Hq, Hqd. by rewrite decide_True.
  - intros aid answer answerer Ha Had Haa. unfold AnswerRoutes.vote.
    rewrite Hv, Ha, Had. by rewrite decide_True.
Qed.

Lemma self_vote_rejected_witness :
  QuestionRoutes.vote question_only 5 true 10%N alice "up"
  = (error 400 "Cannot vote on your own question", question_only)
  ∧ AnswerRoutes.vote forum 5 true 20%N bob "down"
    = (error 400 "Cannot vote on your own answer", forum).
Proof.
  split.
  - destruct (self_vote_rejected question_only 5 true "up" up eq_refl) as [Hq _].
    apply (Hq 10%N question10 alice); reflexivity.
  - destruct (self_vote_rejected forum 5 true "down" down eq_refl) as [_ Ha].
    apply (Ha 20%N answer20 bob); reflexivity.
Defined.

(** ** C7 *)

(** C7. Unaccept requested by the question's author for a (found, not
    soft-deleted) answer whose [isAccepted] flag is clear is answered with
    400 "This answer is not currently accepted" and changes nothing in the
    store. *)
Theorem unaccept_of_unaccepted_rejected
    (s : Store) (id : ObjectId) (req_user : User)
    (answer : Answer.t) (question : Question.t) :
  answers s !! id = Some answer →
  Answer.isDeleted answer = false →
  questions s !! Answer.questionId answer = Some question →
  Question.isDeleted question = false →
  Question.askedBy question = _id req_user →
  Answer.isAccepted answer = false →
  AnswerRoutes.unaccept s id req_user
  = (error 400 "This answer is not currently accepted", s).
Proof.
  intros Ha Had Hq Hqd Hown Hf. unfold AnswerRoutes.unaccept.
  rewrite Ha, Had, Hq, Hqd, Hf. by rewrite decide_False by (by intros []).
Qed.

Lemma unaccept_of_unaccepted_rejected_witness :
  AnswerRoutes.unaccept forum_accepted 21%N alice
  = (error 400 "This answer is not currently accepted", forum_accepted).
Proof.
  apply (unaccept_of_unaccepted_rejected forum_accepted 21%N alice answer21
           (Question.set_acceptedAnswer question10 (Some 20%N))); reflexivity.
Defined.

(** ** C3 *)

(** C3. For an accept request on a (found, not soft-deleted) answer [id]
    of a (found, not soft-deleted) question: a requester other than the
    question's author gets 403 and the store is left as it was; for the
    author the request succeeds, and if the question pointed to a different
    answer [A] before, then afterwards [A] is not accepted, [id] is
    accepted, and the question points to [id]. *)
Theorem accept_by_owner_moves_acceptance
    (s : Store) (inserted : bool) (id : ObjectId) (req_user : User)
    (answer : Answer.t) (question : Question.t) :
  answers s !! id = Some answer →
  Answer.isDeleted answer = false →
  questions s !! Answer.questionId answer = Some question →
  Question.isDeleted question = false →
  (Question.askedBy question ≠ _id req_user →
   AnswerRoutes.accept s inserted id req_user
   = (error 403 "Only the question owner can accept answers", s))
  ∧ (Question.askedBy question = _id req_user →
     let r := AnswerRoutes.accept s inserted id req_user in
     status r.1 = 200
     ∧ ∀ A previousAnswer,
         Question.acceptedAnswer question = Some A → A ≠ id →
         answers s !! A = Some previousAnswer →
         Answer.isAccepted <$> answers r.2 !! A = Some false
         ∧ Answer.isAccepted <$> answers r.2 !! id = Some true
         ∧ Question.acceptedAnswer <$> questions r.2 !! Answer.questionId answer
           = Some (Some id)).
Proof.
  intros Ha Had Hq Hqd. unfold AnswerRoutes.accept. rewrite Ha, Had, Hq, Hqd. split.
  - intros Hne. by rewrite decide_True.
  - intros Hown. rewrite decide_False by (by intros []). cbn zeta.
    split; [done|]. intros A previousAnswer Hp HA Hprev. cbn [fst snd].
    rewrite answers_try_notify, questions_try_notify. simpl.
    rewrite questions_save_accepted, questions_unaccept_previous.
    assert (AnswerRoutes.unaccept_previous s question
            = save_answer s A (Answer.unaccept previousAnswer)) as ->.
    { unfold AnswerRoutes.unaccept_previous. by rewrite Hp, Hprev. }
    rewrite (answers_save_accepted _ id answer answer)
      by (simpl; by rewrite lookup_insert_ne).
    destruct (Answer.isAccepted answer) eqn:Hf; simpl; split_and!.
    + by rewrite lookup_insert_eq.
    + by rewrite lookup_insert_ne, Ha by done; simpl; rewrite Hf.
    + by rewrite lookup_insert_eq.
    + by rewrite lookup_insert_ne, lookup_insert_eq by done.
    + by rewrite lookup_insert_eq.
    + by rewrite lookup_insert_eq.
Qed.

Lemma accept_by_owner_moves_acceptance_witness :
  AnswerRoutes.accept forum_accepted true 21%N carol
  = (error 403 "Only the question owner can accept answers", forum_accepted)
  ∧ (let s' := (AnswerRoutes.accept forum_accepted true 21%N alice).2 in
     Answer.isAccepted <$> answers s' !! 20%N = Some false
     ∧ Answer.isAccepted <$> answers s' !! 21%N = Some true
     ∧ Question.acceptedAnswer <$> questions s' !! 10%N = Some (Some 21%N)).
Proof.
  split.
  - apply (accept_by_owner_moves_acceptance forum_accepted true 21%N carol answer21
             (Question.set_acceptedAnswer question10 (Some 20%N)));
      [reflexivity .. | discriminate].
  - destruct (accept_by_owner_moves_acceptance forum_accepted true 21%N alice answer21
                (Question.set_acceptedAnswer question10 (Some 20%N)))
      as [_ Hown]; [reflexivity .. |].
    destruct (Hown eq_refl) as [_ Hmove].
    apply (Hmove 20%N (Answer.accept answer20)); [reflexivity | discriminate | reflexivity].
Defined.

(** ** C10 *)

(** C10 fails on the delete and accept routes taken together.  Alice
    accepts Bob's answer twice.  The second accept clears the flag of the
    "previous" answer, which is the same answer, and saves nothing for the
    target, whose copy already held [true]: the question still points to
    the answer and the flag is clear.  Delete checks the flag alone, so
    Bob's delete request is answered 200 and the question is left pointing
    to a soft-deleted answer. *)
Theorem reaccepted_answer_is_deleted :
  let s := serve forum [accept_request 20%N alice true; accept_request 20%N alice true] in
  let r := AnswerRoutes.delete_answer s 20%N bob in
  Question.acceptedAnswer <$> questions s !! 10%N = Some (Some 20%N)
  ∧ r.1 = json "Answer deleted successfully" no_payload
  ∧ Answer.isDeleted <$> answers r.2 !! 20%N = Some true
  ∧ Question.acceptedAnswer <$> questions r.2 !! 10%N = Some (Some 20%N).
Proof. cbn zeta. split_and!; reflexivity. Qed.

(** X25. For an answer whose [isAccepted] flag is set, the delete request
    never succeeds and leaves the store, hence [isDeleted], as it was; when
    the answer is not soft-deleted and the requester is its author or an
    admin, the request is answered with 400 "Cannot delete an accepted
    answer". *)
Theorem accepted_answer_not_deleted
    (s : Store) (id : ObjectId) (req_user : User) (answer : Answer.t) :
  answers s !! id = Some answer →
  Answer.isAccepted answer = true →
  let r := AnswerRoutes.delete_answer s id req_user in
  400 ≤ status r.1
  ∧ r.2 = s
  ∧ (Answer.isDeleted answer = false →
     Answer.answeredBy answer = _id req_user ∨ role req_user = role_admin →
     r.1 = error 400 "Cannot delete an accepted answer").
Proof.
  intros Ha Hf. unfold AnswerRoutes.delete_answer. rewrite Ha, Hf.
  destruct (Answer.isDeleted answer); [by split_and! |].
  destruct (bool_decide _ && bool_decide _) eqn:Hauth; simpl.
  - split; [done|]. split; [done|]. intros _ [Hown | Hadm].
    + by rewrite (bool_decide_eq_false_2 _ (λ H, H Hown)) in Hauth.
    + rewrite (bool_decide_eq_false_2 (role req_user ≠ role_admin)) in Hauth
        by (by intros []).
      by rewrite andb_false_r in Hauth.
  - by split_and!.
Qed.

Lemma accepted_answer_not_deleted_witness :
  AnswerRoutes.delete_answer forum_accepted 20%N bob
  = (error 400 "Cannot delete an accepted answer", forum_accepted).
Proof.
  destruct (accepted_answer_not_deleted forum_accepted 20%N bob
              (Answer.accept answer20))
    as (_ & Hs & Hr); [reflexivity | reflexivity |].
  apply injective_projections;
    [exact (Hr eq_refl (or_introl eq_refl)) | exact Hs].
Defined.

(** ** C9 *)

(** C9. Whether the notification insert succeeds or throws, each of the
    two vote requests and the accept request returns the same response and
    leaves the same questions and answers behind. *)
Theorem notification_failure_swallowed
    (s : Store) (now : Z) (id : ObjectId) (req_user : User) (raw : string) :
  ((QuestionRoutes.vote s now true id req_user raw).1
     = (QuestionRoutes.vote s now false id req_user raw).1
   ∧ questions (QuestionRoutes.vote s now true id req_user raw).2
     = questions (QuestionRoutes.vote s now false id req_user raw).2
   ∧ answers (QuestionRoutes.vote s now true id req_user raw).2
     = answers (QuestionRoutes.vote s now false id req_user raw).2)
  ∧ ((AnswerRoutes.vote s now true id req_user raw).1
       = (AnswerRoutes.vote s now false id req_user raw).1
     ∧ questions (AnswerRoutes.vote s now true id req_user raw).2
       = questions (AnswerRoutes.vote s now false id req_user raw).2
     ∧ answers (AnswerRoutes.vote s now true id req_user raw).2
       = answers (AnswerRoutes.vote s now false id req_user raw).2)
  ∧ ((AnswerRoutes.accept s true id req_user).1
       = (AnswerRoutes.accept s false id req_user).1
     ∧ questions (AnswerRoutes.accept s true id req_user).2
       = questions (AnswerRoutes.accept s false id req_user).2
     ∧ answers (AnswerRoutes.accept s true id req_user).2
       = answers (AnswerRoutes.accept s false id req_user).2).
Proof.
  unfold QuestionRoutes.vote, AnswerRoutes.vote, AnswerRoutes.accept.
  split_and!; repeat case_match; simpl;
    rewrite ?questions_try_notify, ?answers_try_notify; done.
Qed.

(** ** C1 *)

(** C1 fails on the accept route.  From the forum, where nothing is
    accepted, Alice accepts Bob's answer and then accepts it again; both
    requests are answered 200.  The second request reads the answer with
    its flag set, clears the flag through the copy of the "previous"
    answer, and then saves nothing for the target, because assigning
    [true] to a copy that holds [true] changes no path.  The question
    points to answer 20 and answer 20 is not accepted. *)
Theorem reaccept_loses_the_flag :
  let s1 := (handle forum (accept_request 20%N alice true)).2 in
  let s2 := (handle s1 (accept_request 20%N alice true)).2 in
  none_accepted forum
  ∧ status (handle forum (accept_request 20%N alice true)).1 = 200
  ∧ status (handle s1 (accept_request 20%N alice true)).1 = 200
  ∧ s2 = serve forum [accept_request 20%N alice true; accept_request 20%N alice true]
  ∧ Question.acceptedAnswer <$> questions s2 !! 10%N = Some (Some 20%N)
  ∧ Answer.isAccepted <$> answers s2 !! 20%N = Some false
  ∧ ¬ store_inv s2.
Proof.
  cbn zeta. split_and!; try reflexivity.
  - split; apply (bool_decide_unpack _); vm_compute; exact I.
  - intros Hinv.
    destruct (proj1 (Hinv 10%N (Question.set_acceptedAnswer question10 (Some 20%N))
                       eq_refl 20%N) eq_refl) as (a & Ha & _ & Hf).
    revert Ha Hf. vm_compute. by intros [= <-].
Qed.

(** * Further properties of the ledger *)

Section ledger_more.

Implicit Types (votes now : Z) (h : list VoteEntry) (u v w : ObjectId) (d : VoteType).

Lemma getUserVote_body_cons h (x : VoteEntry) u :
  getUserVote_body (x :: h) u
  = if decide (user x = u) then Some (vote x) else getUserVote_body h u.
Proof.
  unfold getUserVote_body. simpl. case_decide; [done|].
  by destruct (list_find _ h) as [[i e]|].
Qed.

Lemma getUserVote_body_not_voter h u : u ∉ voters h → getUserVote_body h u = None.
Proof.
  induction h as [|x h IH]; [done|]. unfold voters. simpl.
  intros [Hx Hh]%not_elem_of_cons. rewrite getUserVote_body_cons.
  rewrite decide_False by done. by apply IH.
Qed.

Lemma getUserVote_body_app_other h (x : VoteEntry) u :
  user x ≠ u → getUserVote_body (h ++ [x]) u = getUserVote_body h u.
Proof.
  intros Hx. induction h as [|y h IH]; simpl.
  - rewrite getUserVote_body_cons. by rewrite decide_False.
  - rewrite !getUserVote_body_cons. by rewrite IH.
Qed.

Lemma getUserVote_body_delete_other h i (e : VoteEntry) u :
  h !! i = Some e → user e ≠ u →
  getUserVote_body (delete i h) u = getUserVote_body h u.
Proof.
  revert i. induction h as [|y h IH]; intros [|i] Hi Hu; simplify_eq/=.
  - rewrite getUserVote_body_cons. by rewrite decide_False.
  - rewrite !getUserVote_body_cons. by rewrite (IH i).
Qed.

Lemma getUserVote_body_insert_other h i (e e' : VoteEntry) u :
  h !! i = Some e → user e ≠ u → user e' ≠ u →
  getUserVote_body (<[i := e']> h) u = getUserVote_body h u.
Proof.
  revert i. induction h as [|y h IH]; intros [|i] Hi Hu Hu'; simplify_eq/=.
  - rewrite !getUserVote_body_cons. by rewrite !decide_False.
  - rewrite !getUserVote_body_cons. by rewrite (IH i).
Qed.

(** The history a vote leaves does not depend on the score. *)
Lemma vote_body_history votes votes' h v d now :
  (vote_body votes h v d now).2 = (vote_body votes' h v d now).2.
Proof.
  unfold vote_body. destruct (list_find _ h) as [[i e]|]; [|done].
  by case_decide.
Qed.

Lemma vote_body_NoDup votes h v d now :
  NoDup (voters h) → NoDup (voters (vote_body votes h v d now).2).
Proof.
  intros Hnd. rewrite (vote_body_history votes (ledger_sum h)).
  by apply vote_body_ledger_ok.
Qed.

(** A vote leaves what every other voter holds as it was. *)
Lemma vote_body_frame votes h v d now u :
  u ≠ v →
  getUserVote_body (vote_body votes h v d now).2 u = getUserVote_body h u.
Proof.
  intros Huv. unfold vote_body.
  destruct (list_find _ h) as [[i e]|] eqn:Hf.
  - destruct (find_entry h v i e Hf) as [Hi Hu].
    case_decide; simpl.
    + apply (getUserVote_body_delete_other h i e); congruence.
    + apply (getUserVote_body_insert_other h i e); simpl; congruence.
  - simpl. apply getUserVote_body_app_other. simpl. congruence.
Qed.

(** The score moves by [score_change] of the vote the voter held. *)
Lemma vote_body_score votes h v d now :
  (vote_body votes h v d now).1 = votes + score_change (getUserVote_body h v) d.
Proof.
  unfold vote_body, getUserVote_body.
  destruct (list_find _ h) as [[i e]|]; simpl.
  - case_decide as Hd; simpl.
    + rewrite Hd. destruct d; simpl; lia.
    + destruct d; simpl; lia.
  - destruct d; simpl; lia.
Qed.

(** With one entry per voter, the voter holds [held_after] afterwards. *)
Lemma vote_body_held votes h v d now :
  NoDup (voters h) →
  getUserVote_body (vote_body votes h v d now).2 v
  = held_after (getUserVote_body h v) d.
Proof.
  intros Hnd. unfold held_after.
  destruct (getUserVote_body h v) as [d'|] eqn:Hg.
  - apply getUserVote_body_Some in Hg as (i & e & Hf & Hd).
    unfold vote_body. rewrite Hf. destruct (find_entry h v i e Hf) as [Hi Hu].
    destruct (decide (vote e = d)) as [He|He]; simpl.
    + rewrite decide_True by congruence.
      apply getUserVote_body_not_voter. unfold voters.
      rewrite list_fmap_delete. intros Hin.
      apply list_elem_of_lookup in Hin as [j Hj].
      unfold voters in Hnd. rewrite NoDup_alt in Hnd.
      assert (user <$> h !! i = Some v) as Hiv by (by rewrite Hi; simpl; f_equal).
      rewrite <- list_lookup_fmap in Hiv.
      destruct (decide (j < i)%nat).
      * rewrite list_lookup_delete_lt in Hj by done.
        pose proof (Hnd j i v Hj Hiv). lia.
      * rewrite list_lookup_delete_ge in Hj by lia.
        pose proof (Hnd (S j) i v Hj Hiv). lia.
    + rewrite decide_False by congruence. rewrite Hu.
      by apply (getUserVote_body_insert h v d now i e).
  - rewrite decide_False by done.
    apply getUserVote_body_None in Hg. unfold vote_body. rewrite Hg. simpl.
    apply getUserVote_body_Some. eexists _, _. split; [by apply find_appended|done].
Qed.

Lemma ledger_sum_bound h : - Z.of_nat (length h) ≤ ledger_sum h ≤ Z.of_nat (length h).
Proof.
  induction h as [|x h IH]; simpl; [lia|]. destruct (vote x); simpl; lia.
Qed.

Lemma vote_body_length votes h v d now :
  (length (vote_body votes h v d now).2 ≤ S (length h))%nat.
Proof.
  unfold vote_body. destruct (list_find _ h) as [[i e]|] eqn:Hf; simpl.
  - destruct (find_entry h v i e Hf) as [Hi _]. case_decide; simpl.
    + rewrite length_delete by eauto. lia.
    + rewrite length_insert. lia.
  - rewrite length_app. simpl. lia.
Qed.

End ledger_more.

Section ledger_runs.

Implicit Types (votes now : Z) (h : list VoteEntry) (u v w : ObjectId) (d : VoteType)
  (cs : list cast).

Lemma vote_body_new votes h v d now :
  v ∉ voters h →
  vote_body votes h v d now = (votes + direction d, h ++ [mkVoteEntry v d now]).
Proof.
  intros Hv%getUserVote_body_not_voter%getUserVote_body_None.
  unfold vote_body. rewrite Hv. by destruct d.
Qed.

Lemma question_castVotes_length q cs :
  (length (Question.voteHistory (question_castVotes q cs))
   ≤ length (Question.voteHistory q) + length cs)%nat.
Proof.
  revert q. induction cs as [|c cs IH]; intros q; simpl; [lia|].
  etrans; [apply IH|]. simpl.
  pose proof (vote_body_length (Question.votes q) (Question.voteHistory q)
                c.1.1 c.1.2 c.2). lia.
Qed.

Lemma answer_castVotes_length a cs :
  (length (Answer.voteHistory (answer_castVotes a cs))
   ≤ length (Answer.voteHistory a) + length cs)%nat.
Proof.
  revert a. induction cs as [|c cs IH]; intros a; simpl; [lia|].
  etrans; [apply IH|]. simpl.
  pose proof (vote_body_length (Answer.votes a) (Answer.voteHistory a)
                c.1.1 c.1.2 c.2). lia.
Qed.

Lemma question_castVotes_distinct q cs :
  NoDup (voters (Question.voteHistory q) ++ (voter <$> cs)) →
  Question.voteHistory (question_castVotes q cs)
  = Question.voteHistory q ++ (entry_of <$> cs)
  ∧ Question.votes (question_castVotes q cs)
    = Question.votes q + ledger_sum (entry_of <$> cs).
Proof.
  revert q. induction cs as [|[[v d] now] cs IH]; intros q Hnd; simpl.
  - rewrite app_nil_r. split; [done | lia].
  - assert (v ∉ voters (Question.voteHistory q)) as Hv.
    { apply NoDup_app in Hnd as (_ & Hdisj & _). intros Hin.
      apply (Hdisj v Hin). unfold voter. simpl. left. }
    destruct (IH (Question.vote q v d now)) as [Hh Hs].
    + unfold Question.vote. simpl. rewrite (vote_body_new _ _ _ _ _ Hv). simpl.
      unfold voters in *. rewrite fmap_app, <- app_assoc. exact Hnd.
    + rewrite Hh, Hs. unfold Question.vote. simpl.
      rewrite (vote_body_new _ _ _ _ _ Hv). simpl.
      rewrite <- app_assoc. split; [done|]. rewrite <- Z.add_assoc. reflexivity.
Qed.

Lemma answer_castVotes_distinct a cs :
  NoDup (voters (Answer.voteHistory a) ++ (voter <$> cs)) →
  Answer.voteHistory (answer_castVotes a cs)
  = Answer.voteHistory a ++ (entry_of <$> cs)
  ∧ Answer.votes (answer_castVotes a cs)
    = Answer.votes a + ledger_sum (entry_of <$> cs).
Proof.
  revert a. induction cs as [|[[v d] now] cs IH]; intros a Hnd; simpl.
  - rewrite app_nil_r. split; [done | lia].
  - assert (v ∉ voters (Answer.voteHistory a)) as Hv.
    { apply NoDup_app in Hnd as (_ & Hdisj & _). intros Hin.
      apply (Hdisj v Hin). unfold voter. simpl. left. }
    destruct (IH (Answer.vote a v d now)) as [Hh Hs].
    + unfold Answer.vote. simpl. rewrite (vote_body_new _ _ _ _ _ Hv). simpl.
      unfold voters in *. rewrite fmap_app, <- app_assoc. exact Hnd.
    + rewrite Hh, Hs. unfold Answer.vote. simpl.
      rewrite (vote_body_new _ _ _ _ _ Hv). simpl.
      rewrite <- app_assoc. split; [done|]. rewrite <- Z.add_assoc. reflexivity.
Qed.

(** Votes of two different voters commute, as far as the score and what
    each voter holds go (the order of the entries may differ). *)
Lemma vote_body_commute votes h u v du dv n1 n2 n3 n4 w :
  NoDup (voters h) → u ≠ v →
  let uv := vote_body (vote_body votes h u du n1).1 (vote_body votes h u du n1).2
              v dv n2 in
  let vu := vote_body (vote_body votes h v dv n3).1 (vote_body votes h v dv n3).2
              u du n4 in
  uv.1 = vu.1 ∧ getUserVote_body uv.2 w = getUserVote_body vu.2 w.
Proof.
  intros Hnd Huv. cbn zeta.
  pose proof (vote_body_NoDup votes h u du n1 Hnd) as Hndu.
  pose proof (vote_body_NoDup votes h v dv n3 Hnd) as Hndv.
  split.
  - rewrite !vote_body_score.
    rewrite (vote_body_frame votes h u du n1 v) by done.
    rewrite (vote_body_frame votes h v dv n3 u) by done. lia.
  - destruct (decide (w = v)) as [->|Hwv]; [|destruct (decide (w = u)) as [->|Hwu]].
    + rewrite vote_body_held by done.
      rewrite (vote_body_frame _ _ u du n4 v) by done.
      rewrite vote_body_held by done.
      by rewrite (vote_body_frame votes h u du n1 v) by done.
    + rewrite (vote_body_frame _ _ v dv n2 u) by done.
      rewrite !vote_body_held by done.
      by rewrite (vote_body_frame votes h v dv n3 u) by done.
    + by rewrite !vote_body_frame by done.
Qed.

End ledger_runs.

(** ** What a vote does, by what the voter holds *)

(** X1. A vote by [v] leaves the vote that [getUserVote] reports for any
    other user as it was, on questions and on answers. *)
Theorem vote_leaves_other_voters
    (q : Question.t) (a : Answer.t) (v u : ObjectId) (d : VoteType) (now : Z) :
  u ≠ v →
  Question.getUserVote (Question.vote q v d now) u = Question.getUserVote q u
  ∧ Answer.getUserVote (Answer.vote a v d now) u = Answer.getUserVote a u.
Proof.
  intros Huv. unfold Question.getUserVote, Answer.getUserVote, Question.vote, Answer.vote.
  simpl. by rewrite !vote_body_frame.
Qed.

Lemma vote_leaves_other_voters_witness :
  Question.getUserVote (Question.vote question_two_votes 4%N up 102) 3%N = Some up
  ∧ Answer.getUserVote (Answer.vote answer_two_votes 4%N up 102) 3%N = Some up.
Proof.
  destruct (vote_leaves_other_voters question_two_votes answer_two_votes
              4%N 3%N up 102) as [Hq Ha]; [done|].
  rewrite Hq, Ha. split; reflexivity.
Defined.

(** X2. With one entry per voter in the ledger, a vote in direction [d]
    by a voter who holds [held] moves the score by [score_change held d]
    (+-1 for a new vote, back by one for the same vote, +-2 for the
    opposite vote) and leaves the voter holding [held_after held d]
    (nothing after the same vote, [d] otherwise). *)
Theorem vote_by_held_vote
    (q : Question.t) (a : Answer.t) (v : ObjectId) (d : VoteType) (now : Z) :
  NoDup (voters (Question.voteHistory q)) →
  NoDup (voters (Answer.voteHistory a)) →
  (Question.votes (Question.vote q v d now)
     = Question.votes q + score_change (Question.getUserVote q v) d
   ∧ Question.getUserVote (Question.vote q v d now) v
     = held_after (Question.getUserVote q v) d)
  ∧ (Answer.votes (Answer.vote a v d now)
       = Answer.votes a + score_change (Answer.getUserVote a v) d
     ∧ Answer.getUserVote (Answer.vote a v d now) v
       = held_after (Answer.getUserVote a v) d).
Proof.
  intros Hq Ha. unfold Question.getUserVote, Answer.getUserVote, Question.vote, Answer.vote.
  simpl. by rewrite !vote_body_score, !vote_body_held.
Qed.

Lemma vote_by_held_vote_witness :
  (Question.votes (Question.vote question_two_votes 4%N up 102) = 2
   ∧ Question.getUserVote (Question.vote question_two_votes 4%N up 102) 4%N = Some up)
  ∧ (Answer.votes (Answer.vote answer_two_votes 3%N up 102) = -1
     ∧ Answer.getUserVote (Answer.vote answer_two_votes 3%N up 102) 3%N = None).
Proof.
  assert (NoDup (voters (Question.voteHistory question_two_votes))) as Hq
    by (apply (bool_decide_unpack _); vm_compute; exact I).
  assert (NoDup (voters (Answer.voteHistory answer_two_votes))) as Ha
    by (apply (bool_decide_unpack _); vm_compute; exact I).
  destruct (vote_by_held_vote question_two_votes answer_two_votes 4%N up 102 Hq Ha)
    as [[Hq1 Hq2] _].
  destruct (vote_by_held_vote question_two_votes answer_two_votes 3%N up 102 Hq Ha)
    as [_ [Ha1 Ha2]].
  rewrite Hq1, Hq2, Ha1, Ha2. repeat split.
Defined.

(** X3. However many votes are cast on a new question or answer, the
    score stays between minus and plus the number of entries in the
    ledger, which is at most the number of votes cast. *)
Theorem score_bounded_by_casts
    (cs : list cast) (title description content : string) (tags : list string)
    (askedBy questionId answeredBy : ObjectId) :
  let q := question_castVotes (Question.create title description tags askedBy) cs in
  let a := answer_castVotes (Answer.create content questionId answeredBy) cs in
  (Z.abs (Question.votes q) ≤ Z.of_nat (length (Question.voteHistory q))
   ∧ (length (Question.voteHistory q) ≤ length cs)%nat)
  ∧ (Z.abs (Answer.votes a) ≤ Z.of_nat (length (Answer.voteHistory a))
     ∧ (length (Answer.voteHistory a) ≤ length cs)%nat).
Proof.
  cbn zeta. split; split.
  - destruct (question_castVotes_ledger_ok
                (Question.create title description tags askedBy) cs) as [_ ->].
    { split; [constructor | done]. }
    pose proof (ledger_sum_bound (Question.voteHistory (question_castVotes
                  (Question.create title description tags askedBy) cs))). lia.
  - apply (question_castVotes_length (Question.create title description tags askedBy)).
  - destruct (answer_castVotes_ledger_ok
                (Answer.create content questionId answeredBy) cs) as [_ ->].
    { split; [constructor | done]. }
    pose proof (ledger_sum_bound (Answer.voteHistory (answer_castVotes
                  (Answer.create content questionId answeredBy) cs))). lia.
  - apply (answer_castVotes_length (Answer.create content questionId answeredBy)).
Qed.

(** X4. When all the votes cast on a new question or answer come from
    different voters, the ledger is the list of those votes in the order
    cast and the score is the sum of their directions. *)
Theorem distinct_voters_all_counted
    (cs : list cast) (title description content : string) (tags : list string)
    (askedBy questionId answeredBy : ObjectId) :
  NoDup (voter <$> cs) →
  let q := question_castVotes (Question.create title description tags askedBy) cs in
  let a := answer_castVotes (Answer.create content questionId answeredBy) cs in
  (Question.voteHistory q = entry_of <$> cs
   ∧ Question.votes q = ledger_sum (entry_of <$> cs))
  ∧ (Answer.voteHistory a = entry_of <$> cs
     ∧ Answer.votes a = ledger_sum (entry_of <$> cs)).
Proof.
  intros Hnd. cbn zeta. split.
  - by destruct (question_castVotes_distinct
                   (Question.create title description tags askedBy) cs Hnd) as [-> ->].
  - by destruct (answer_castVotes_distinct
                   (Answer.create content questionId answeredBy) cs Hnd) as [-> ->].
Qed.

Lemma distinct_voters_all_counted_witness :
  Question.votes (question_castVotes question10 [(2%N, up, 1); (3%N, up, 2); (4%N, down, 3)])
  = 1
  ∧ Answer.votes (answer_castVotes answer20 [(1%N, up, 1); (3%N, up, 2); (4%N, down, 3)])
    = 1.
Proof.
  split.
  - destruct (distinct_voters_all_counted [(2%N, up, 1); (3%N, up, 2); (4%N, down, 3)]
                (Question.title question10) (Question.description question10) ""
                (Question.tags question10) 1%N 0%N 0%N) as [[_ Hq] _].
    { apply (bool_decide_unpack _). vm_compute. exact I. }
    exact Hq.
  - destruct (distinct_voters_all_counted [(1%N, up, 1); (3%N, up, 2); (4%N, down, 3)]
                "" "" (Answer.content answer20) [] 0%N 10%N 2%N) as [_ [_ Ha]].
    { apply (bool_decide_unpack _). vm_compute. exact I. }
    exact Ha.
Defined.

(** X5. With one entry per voter in the ledger, the votes of two
    different voters commute: in either order the score is the same and
    [getUserVote] reports the same for every user. *)
Theorem votes_of_two_voters_commute
    (q : Question.t) (a : Answer.t) (u v w : ObjectId) (du dv : VoteType)
    (n1 n2 n3 n4 : Z) :
  NoDup (voters (Question.voteHistory q)) →
  NoDup (voters (Answer.voteHistory a)) →
  u ≠ v →
  let q_uv := Question.vote (Question.vote q u du n1) v dv n2 in
  let q_vu := Question.vote (Question.vote q v dv n3) u du n4 in
  let a_uv := Answer.vote (Answer.vote a u du n1) v dv n2 in
  let a_vu := Answer.vote (Answer.vote a v dv n3) u du n4 in
  (Question.votes q_uv = Question.votes q_vu
   ∧ Question.getUserVote q_uv w = Question.getUserVote q_vu w)
  ∧ (Answer.votes a_uv = Answer.votes a_vu
     ∧ Answer.getUserVote a_uv w = Answer.getUserVote a_vu w).
Proof.
  intros Hq Ha Huv. cbn zeta. split.
  - apply (vote_body_commute (Question.votes q) (Question.voteHistory q)
             u v du dv n1 n2 n3 n4 w Hq Huv).
  - apply (vote_body_commute (Answer.votes a) (Answer.voteHistory a)
             u v du dv n1 n2 n3 n4 w Ha Huv).
Qed.

Lemma votes_of_two_voters_commute_witness :
  Question.votes (Question.vote (Question.vote question_two_votes 3%N down 5) 4%N down 6)
  = Question.votes (Question.vote (Question.vote question_two_votes 4%N down 7) 3%N down 8)
  ∧ Answer.votes (Answer.vote (Answer.vote answer_two_votes 3%N down 5) 4%N down 6)
    = Answer.votes (Answer.vote (Answer.vote answer_two_votes 4%N down 7) 3%N down 8).
Proof.
  destruct (votes_of_two_voters_commute question_two_votes answer_two_votes
              3%N 4%N 3%N down down 5 6 7 8) as [[Hq _] [Ha _]].
  - apply (bool_decide_unpack _). vm_compute. exact I.
  - apply (bool_decide_unpack _). vm_compute. exact I.
  - done.
  - exact (conj Hq Ha).
Defined.

(** * Further properties of the routes *)

(** ** How a request changes the stored documents *)

Section changes.

Implicit Types (s : Store) (r : Request) (id : ObjectId) (u : User).

Lemma answer_step_refl (o : option Answer.t) : answer_step o o.
Proof. destruct o; [constructor | done]. Qed.

Lemma question_step_refl (o : option Question.t) : question_step o o.
Proof. destruct o; [constructor | done]. Qed.

Lemma answer_step_insert s id0 id a a' :
  answers s !! id0 = Some a → answer_change (Some a) a' →
  answer_step (answers s !! id) (<[id0 := a']> (answers s) !! id).
Proof.
  intros Ha Hc. destruct (decide (id0 = id)) as [<-|Hne].
  - by rewrite lookup_insert_eq, Ha.
  - rewrite lookup_insert_ne by done. apply answer_step_refl.
Qed.

Lemma question_step_insert s id0 id q q' :
  questions s !! id0 = Some q → question_change q q' →
  question_step (questions s !! id) (<[id0 := q']> (questions s) !! id).
Proof.
  intros Hq Hc. destruct (decide (id0 = id)) as [<-|Hne].
  - by rewrite lookup_insert_eq, Hq.
  - rewrite lookup_insert_ne by done. apply question_step_refl.
Qed.

Lemma unaccept_previous_lookup s (q : Question.t) id :
  match answers s !! id with
  | Some a =>
      answers (AnswerRoutes.unaccept_previous s q) !! id = Some a
      ∨ answers (AnswerRoutes.unaccept_previous s q) !! id = Some (Answer.unaccept a)
  | None => answers (AnswerRoutes.unaccept_previous s q) !! id = None
  end.
Proof.
  unfold AnswerRoutes.unaccept_previous.
  destruct (Question.acceptedAnswer q) as [p|]; [|destruct (answers s !! id); auto].
  destruct (answers s !! p) as [pa|] eqn:Hp; [|destruct (answers s !! id); auto].
  simpl. rewrite lookup_insert. case_decide as Hid.
  - subst p. rewrite Hp. auto.
  - destruct (answers s !! id); auto.
Qed.

Lemma unaccept_previous_answers_step s (q : Question.t) id :
  answer_step (answers s !! id) (answers (AnswerRoutes.unaccept_previous s q) !! id).
Proof.
  pose proof (unaccept_previous_lookup s q id) as H.
  destruct (answers s !! id) as [a|]; [|by rewrite H].
  destruct H as [-> | ->]; constructor.
Qed.

Lemma accept_answers_step s inserted id0 u id :
  answer_step (answers s !! id) (answers (AnswerRoutes.accept s inserted id0 u).2 !! id).
Proof.
  unfold AnswerRoutes.accept.
  destruct (answers s !! id0) as [a|] eqn:Ha; [|apply answer_step_refl].
  destruct (Answer.isDeleted a) eqn:Hd; [apply answer_step_refl|].
  destruct (questions s !! Answer.questionId a) as [q|]; [|apply answer_step_refl].
  destruct (Question.isDeleted q); [apply answer_step_refl|].
  case_decide; [apply answer_step_refl|]. cbn [snd].
  rewrite answers_try_notify. simpl.
  pose proof (unaccept_previous_lookup s q id0) as H0. rewrite Ha in H0.
  unfold AnswerRoutes.save_accepted.
  destruct (Answer.isAccepted a); [apply unaccept_previous_answers_step|].
  assert (∃ stored, answers (AnswerRoutes.unaccept_previous s q) !! id0 = Some stored
                    ∧ Answer.accept stored = Answer.accept a) as (stored & -> & Hacc).
  { destruct H0 as [H0|H0]; eauto. }
  simpl. rewrite Hacc, lookup_insert. case_decide as Hid.
  - subst id0. rewrite Ha. by constructor.
  - apply unaccept_previous_answers_step.
Qed.

Lemma unaccept_answers_step s id0 u id :
  answer_step (answers s !! id) (answers (AnswerRoutes.unaccept s id0 u).2 !! id).
Proof.
  unfold AnswerRoutes.unaccept.
  destruct (answers s !! id0) as [a|] eqn:Ha; [|apply answer_step_refl].
  destruct (Answer.isDeleted a) eqn:Hd; [apply answer_step_refl|].
  destruct (questions s !! Answer.questionId a) as [q|]; [|apply answer_step_refl].
  destruct (Question.isDeleted q); [apply answer_step_refl|].
  case_decide; [apply answer_step_refl|].
  destruct (Answer.isAccepted a); [|apply answer_step_refl]. cbn [negb snd]. simpl.
  apply (answer_step_insert s id0 id a); [done | constructor].
Qed.

(** Every request changes every answer by one of the listed changes. *)
Lemma dispatch_answers_step s r id :
  answer_step (answers s !! id) (answers (dispatch s r).2 !! id).
Proof.
  destruct r as [now ins id0 u raw|now ins id0 u raw|[id0 u ins|id0 u]
                 |id0 u content|id0 u|id0 u|new ins id0 u content]; simpl.
  - unfold QuestionRoutes.vote. repeat case_match; simpl;
      rewrite ?answers_try_notify; apply answer_step_refl.
  - unfold AnswerRoutes.vote.
    destruct (validate_vote raw) as [d|]; [|apply answer_step_refl].
    destruct (answers s !! id0) as [a|] eqn:Ha; [|apply answer_step_refl].
    destruct (Answer.isDeleted a) eqn:Hd; [apply answer_step_refl|].
    case_decide; [apply answer_step_refl|]. cbn [snd].
    rewrite answers_try_notify. simpl.
    apply (answer_step_insert s id0 id a); [done | by constructor].
  - apply accept_answers_step.
  - apply unaccept_answers_step.
  - unfold AnswerCrud.update_answer.
    destruct (isLength_min 30 content); [|apply answer_step_refl]. simpl.
    destruct (answers s !! id0) as [a|] eqn:Ha; [|apply answer_step_refl].
    destruct (Answer.isDeleted a) eqn:Hd; [apply answer_step_refl|].
    destruct (_ && _); [apply answer_step_refl|]. simpl.
    apply (answer_step_insert s id0 id a); [done | by constructor].
  - unfold AnswerRoutes.delete_answer.
    destruct (answers s !! id0) as [a|] eqn:Ha; [|apply answer_step_refl].
    destruct (Answer.isDeleted a) eqn:Hd; [apply answer_step_refl|].
    destruct (_ && _); [apply answer_step_refl|].
    destruct (Answer.isAccepted a) eqn:Hf; [apply answer_step_refl|]. simpl.
    apply (answer_step_insert s id0 id a); [done | by constructor].
  - unfold QuestionCrud.delete_question. repeat case_match; simpl;
      apply answer_step_refl.
  - unfold QuestionCrud.post_answer.
    destruct (isLength_min 30 content); [|apply answer_step_refl]. simpl.
    destruct (questions s !! id0) as [q|]; [|apply answer_step_refl].
    destruct (Question.isDeleted q); [apply answer_step_refl|].
    destruct (Question.isClosed q); [apply answer_step_refl|].
    destruct (answers s !! new) as [a|] eqn:Hnew; [apply answer_step_refl|].
    cbn [snd]. rewrite answers_try_notify. simpl.
    destruct (decide (new = id)) as [<-|Hne].
    + rewrite lookup_insert_eq, Hnew. constructor.
    + rewrite lookup_insert_ne by done. apply answer_step_refl.
Qed.

(** Every request changes every question by one of the listed changes. *)
Lemma dispatch_questions_step s r id :
  question_step (questions s !! id) (questions (dispatch s r).2 !! id).
Proof.
  destruct r as [now ins id0 u raw|now ins id0 u raw|[id0 u ins|id0 u]
                 |id0 u content|id0 u|id0 u|new ins id0 u content]; simpl.
  - unfold QuestionRoutes.vote.
    destruct (validate_vote raw) as [d|]; [|apply question_step_refl].
    destruct (questions s !! id0) as [q|] eqn:Hq; [|apply question_step_refl].
    destruct (Question.isDeleted q) eqn:Hd; [apply question_step_refl|].
    case_decide; [apply question_step_refl|]. cbn [snd].
    rewrite questions_try_notify. simpl.
    apply (question_step_insert s id0 id q); [done | by constructor].
  - unfold AnswerRoutes.vote. repeat case_match; simpl;
      rewrite ?questions_try_notify; apply question_step_refl.
  - unfold AnswerRoutes.accept.
    destruct (answers s !! id0) as [a|]; [|apply question_step_refl].
    destruct (Answer.isDeleted a); [apply question_step_refl|].
    destruct (questions s !! Answer.questionId a) as [q|] eqn:Hq;
      [|apply question_step_refl].
    destruct (Question.isDeleted q) eqn:Hd; [apply question_step_refl|].
    case_decide; [apply question_step_refl|]. cbn [snd].
    rewrite questions_try_notify. simpl.
    rewrite questions_save_accepted, questions_unaccept_previous.
    apply (question_step_insert s _ id q); [done | by constructor].
  - unfold AnswerRoutes.unaccept.
    destruct (answers s !! id0) as [a|]; [|apply question_step_refl].
    destruct (Answer.isDeleted a); [apply question_step_refl|].
    destruct (questions s !! Answer.questionId a) as [q|] eqn:Hq;
      [|apply question_step_refl].
    destruct (Question.isDeleted q) eqn:Hd; [apply question_step_refl|].
    case_decide; [apply question_step_refl|].
    destruct (Answer.isAccepted a); [|apply question_step_refl]. simpl.
    apply (question_step_insert s _ id q); [done | by constructor].
  - unfold AnswerCrud.update_answer. repeat case_match; simpl;
      apply question_step_refl.
  - unfold AnswerRoutes.delete_answer. repeat case_match; simpl;
      apply question_step_refl.
  - unfold QuestionCrud.delete_question.
    destruct (questions s !! id0) as [q|] eqn:Hq; [|apply question_step_refl].
    destruct (Question.isDeleted q) eqn:Hd; [apply question_step_refl|].
    destruct (_ && _); [apply question_step_refl|]. simpl.
    apply (question_step_insert s id0 id q); [done | by constructor].
  - unfold QuestionCrud.post_answer. repeat case_match; simpl;
      rewrite ?questions_try_notify; apply question_step_refl.
Qed.

End changes.

(** ** Invariants kept by every request *)

Section invariants.

Implicit Types (s : Store) (r : Request) (rs : list Request) (id : ObjectId) (u : User).

Lemma run_invariant (P : Store → Prop) :
  (∀ s r, P s → P (dispatch s r).2) → ∀ s rs, P s → P (run s rs).
Proof.
  intros Hstep s rs. revert s. induction rs as [|r rs IH]; intros s Hs; [done|].
  simpl. by apply IH, Hstep.
Qed.

Lemma voters_after_vote votes (h : list VoteEntry) (v : ObjectId) d now x :
  x ∈ voters (vote_body votes h v d now).2 → x ∈ voters h ∨ x = v.
Proof.
  unfold vote_body. destruct (list_find _ h) as [[i e]|] eqn:Hf.
  - destruct (find_entry h v i e Hf) as [Hi Hu]. case_decide; simpl.
    + unfold voters. rewrite list_fmap_delete. intros Hx. left.
      by eapply list_elem_of_delete_inv.
    + rewrite (voters_insert_same h i e); [auto | done | done].
  - simpl. unfold voters. rewrite fmap_app. simpl.
    rewrite elem_of_app, list_elem_of_singleton. auto.
Qed.

Lemma answer_change_ledger_ok o a' :
  (∀ a, o = Some a → ledger_ok (Answer.votes a) (Answer.voteHistory a)) →
  answer_change o a' → ledger_ok (Answer.votes a') (Answer.voteHistory a').
Proof.
  intros Ho Hc. destruct Hc; simpl; try (by apply (Ho _ eq_refl)).
  - by apply vote_body_ledger_ok, (Ho _ eq_refl).
  - split; [constructor | done].
Qed.

Lemma question_change_ledger_ok q q' :
  ledger_ok (Question.votes q) (Question.voteHistory q) →
  question_change q q' → ledger_ok (Question.votes q') (Question.voteHistory q').
Proof. intros Ho Hc. destruct Hc; simpl; try done. by apply vote_body_ledger_ok. Qed.

Lemma answer_change_no_self_vote o a' :
  (∀ a, o = Some a → Answer.answeredBy a ∉ voters (Answer.voteHistory a)) →
  answer_change o a' → Answer.answeredBy a' ∉ voters (Answer.voteHistory a').
Proof.
  intros Ho Hc. destruct Hc; simpl; try (by apply (Ho _ eq_refl)).
  - intros [Hin|Heq]%voters_after_vote; [|done]. by apply (Ho _ eq_refl).
  - apply not_elem_of_nil.
Qed.

Lemma question_change_no_self_vote q q' :
  Question.askedBy q ∉ voters (Question.voteHistory q) →
  question_change q q' → Question.askedBy q' ∉ voters (Question.voteHistory q').
Proof.
  intros Ho Hc. destruct Hc; simpl; try done.
  by intros [Hin|Heq]%voters_after_vote.
Qed.

Lemma answer_change_flags o a' :
  (∀ a, o = Some a → Answer.isDeleted a = true → Answer.isAccepted a = false) →
  answer_change o a' → Answer.isDeleted a' = true → Answer.isAccepted a' = false.
Proof.
  intros Ho Hc. destruct Hc; simpl; try (by apply (Ho _ eq_refl)); congruence.
Qed.

(** A property of single documents that every change keeps is kept by
    every request in the whole collection. *)
Lemma dispatch_answers_Forall (P : Answer.t → Prop) :
  (∀ o a', (∀ a, o = Some a → P a) → answer_change o a' → P a') →
  ∀ s r, map_Forall (λ _, P) (answers s) → map_Forall (λ _, P) (answers (dispatch s r).2).
Proof.
  intros HP s r Ha id a' Ha'. pose proof (dispatch_answers_step s r id) as Hstep.
  rewrite Ha' in Hstep. simpl in Hstep.
  eapply HP; [|done]. intros a Hl. by apply (Ha id).
Qed.

Lemma dispatch_questions_Forall (P : Question.t → Prop) :
  (∀ q q', P q → question_change q q' → P q') →
  ∀ s r, map_Forall (λ _, P) (questions s) →
         map_Forall (λ _, P) (questions (dispatch s r).2).
Proof.
  intros HP s r Hq id q' Hq'. pose proof (dispatch_questions_step s r id) as Hstep.
  rewrite Hq' in Hstep. destruct (questions s !! id) as [q|] eqn:Hl; [|done].
  simpl in Hstep. eapply HP; [|done]. by apply (Hq id).
Qed.

Lemma dispatch_ledgers_ok s r : ledgers_ok s → ledgers_ok (dispatch s r).2.
Proof.
  intros [Hq Ha]. split.
  - revert Hq. apply dispatch_questions_Forall, question_change_ledger_ok.
  - revert Ha. apply dispatch_answers_Forall, answer_change_ledger_ok.
Qed.

Lemma dispatch_no_self_votes s r : no_self_votes s → no_self_votes (dispatch s r).2.
Proof.
  intros [Hq Ha]. split.
  - revert Hq. apply dispatch_questions_Forall, question_change_no_self_vote.
  - revert Ha. apply dispatch_answers_Forall, answer_change_no_self_vote.
Qed.

Lemma dispatch_no_deleted_accepted s r :
  no_deleted_accepted s → no_deleted_accepted (dispatch s r).2.
Proof. apply dispatch_answers_Forall, answer_change_flags. Qed.

(** A change of the collections that keeps the parent and the flag of
    every answer and the pointer of every question keeps the acceptance
    invariant. *)
Lemma store_inv_same_acceptance s s' :
  (∀ id, (λ a, (Answer.questionId a, Answer.isAccepted a)) <$> answers s' !! id
         = (λ a, (Answer.questionId a, Answer.isAccepted a)) <$> answers s !! id) →
  (∀ id, Question.acceptedAnswer <$> questions s' !! id
         = Question.acceptedAnswer <$> questions s !! id) →
  store_inv s → store_inv s'.
Proof.
  intros Ha Hq Hinv qid q' Hq' aid.
  pose proof (Hq qid) as Hqq. rewrite Hq' in Hqq. simpl in Hqq.
  destruct (questions s !! qid) as [q|] eqn:Hl; [|done]. injection Hqq as Hp.
  rewrite Hp, (Hinv qid q Hl aid). unfold accepted_in.
  pose proof (Ha aid) as Haa. split.
  - intros (a & Hla & Haq & Hf). rewrite Hla in Haa.
    destruct (answers s' !! aid) as [a'|]; [|done]. injection Haa as H1 H2.
    exists a'. split_and!; congruence.
  - intros (a' & Hla & Haq & Hf). rewrite Hla in Haa.
    destruct (answers s !! aid) as [a|]; [|done]. injection Haa as H1 H2.
    exists a. split_and!; congruence.
Qed.

Lemma store_inv_insert_answer s id a a' ns :
  answers s !! id = Some a →
  Answer.questionId a' = Answer.questionId a → Answer.isAccepted a' = Answer.isAccepted a →
  store_inv s → store_inv (mkStore (questions s) (<[id := a']> (answers s)) ns).
Proof.
  intros Ha Hq Hf. apply store_inv_same_acceptance; [|done]. intros id'. simpl.
  rewrite lookup_insert. case_decide; [|done]. subst. rewrite Ha. simpl. congruence.
Qed.

Lemma store_inv_insert_question s id q q' ns :
  questions s !! id = Some q →
  Question.acceptedAnswer q' = Question.acceptedAnswer q →
  store_inv s → store_inv (mkStore (<[id := q']> (questions s)) (answers s) ns).
Proof.
  intros Hq Hp. apply store_inv_same_acceptance; [done|]. intros id'. simpl.
  rewrite lookup_insert. case_decide; [|done]. subst. rewrite Hq. simpl. congruence.
Qed.

(** A new, unaccepted answer under a free id keeps the invariant. *)
Lemma store_inv_post s new a ns :
  answers s !! new = None → Answer.isAccepted a = false →
  store_inv s → store_inv (mkStore (questions s) (<[new := a]> (answers s)) ns).
Proof.
  intros Hnew Hf Hinv qid q Hq aid. simpl in Hq.
  rewrite (Hinv qid q Hq aid). unfold accepted_in. simpl.
  destruct (decide (new = aid)) as [->|Hne].
  - rewrite lookup_insert_eq, Hnew. split.
    + by intros (? & ? & _).
    + intros (? & [= <-] & _ & ?). congruence.
  - by rewrite lookup_insert_ne.
Qed.

Lemma store_inv_notified s o : store_inv s → store_inv (try_notify s o).
Proof.
  apply store_inv_ext; [apply questions_try_notify | apply answers_try_notify].
Qed.

(** Every request keeps the acceptance invariant, except an accept of an
    answer whose flag is already set. *)
Lemma dispatch_store_inv s r :
  store_inv s → ¬ reaccepts s r → store_inv (dispatch s r).2.
Proof.
  intros Hinv Hfresh.
  destruct r as [now ins id0 u raw|now ins id0 u raw|ar
                 |id0 u content|id0 u|id0 u|new ins id0 u content]; simpl.
  - unfold QuestionRoutes.vote.
    destruct (validate_vote raw) as [d|]; [|done].
    destruct (questions s !! id0) as [q|] eqn:Hq; [|done].
    destruct (Question.isDeleted q); [done|]. case_decide; [done|]. cbn [snd].
    apply store_inv_notified. by apply (store_inv_insert_question s id0 q).
  - unfold AnswerRoutes.vote.
    destruct (validate_vote raw) as [d|]; [|done].
    destruct (answers s !! id0) as [a|] eqn:Ha; [|done].
    destruct (Answer.isDeleted a); [done|]. case_decide; [done|]. cbn [snd].
    apply store_inv_notified. by apply (store_inv_insert_answer s id0 a).
  - destruct ar as [id0 u ins|id0 u]; simpl.
    + apply accept_store_inv_unflagged; [done|]. simpl in Hfresh.
      intros Hf. by apply Hfresh.
    + by apply unaccept_store_inv.
  - unfold AnswerCrud.update_answer.
    destruct (isLength_min 30 content); [|done]. simpl.
    destruct (answers s !! id0) as [a|] eqn:Ha; [|done].
    destruct (Answer.isDeleted a); [done|]. destruct (_ && _); [done|]. simpl.
    by apply (store_inv_insert_answer s id0 a).
  - unfold AnswerRoutes.delete_answer.
    destruct (answers s !! id0) as [a|] eqn:Ha; [|done].
    destruct (Answer.isDeleted a); [done|]. destruct (_ && _); [done|].
    destruct (Answer.isAccepted a); [done|]. simpl.
    by apply (store_inv_insert_answer s id0 a).
  - unfold QuestionCrud.delete_question.
    destruct (questions s !! id0) as [q|] eqn:Hq; [|done].
    destruct (Question.isDeleted q); [done|]. destruct (_ && _); [done|]. simpl.
    by apply (store_inv_insert_question s id0 q).
  - unfold QuestionCrud.post_answer.
    destruct (isLength_min 30 content); [|done]. simpl.
    destruct (questions s !! id0) as [q|]; [|done].
    destruct (Question.isDeleted q); [done|].
    destruct (Question.isClosed q); [done|].
    destruct (answers s !! new) as [a|] eqn:Hnew; [done|]. cbn [snd].
    apply store_inv_notified. by apply store_inv_post.
Qed.

Lemma run_store_inv s rs :
  store_inv s → never_reaccepts s rs → store_inv (run s rs).
Proof.
  revert s. induction rs as [|r rs IH]; intros s Hinv Hn; [done|].
  destruct Hn as [Hr Hn]. simpl. apply IH; [|done]. by apply dispatch_store_inv.
Qed.

Lemma store_inv_weak s : store_inv s → store_weak_inv s.
Proof.
  intros Hinv qid q Hq. split.
  - intros aid. apply (Hinv qid q Hq aid).
  - intros aid Hp. destruct (proj1 (Hinv qid q Hq aid) Hp) as (a & Ha & Haq & _).
    eauto.
Qed.

(** The weak invariant survives a change of the answers that removes no
    document, moves no answer to another question and sets no flag. *)
Lemma store_weak_inv_mono s (ans : gmap N Answer.t) ns :
  store_weak_inv s →
  (∀ id a, answers s !! id = Some a →
     ∃ a', ans !! id = Some a' ∧ Answer.questionId a' = Answer.questionId a) →
  (∀ id a', ans !! id = Some a' → Answer.isAccepted a' = true →
     ∃ a, answers s !! id = Some a ∧ Answer.questionId a = Answer.questionId a'
          ∧ Answer.isAccepted a = true) →
  store_weak_inv (mkStore (questions s) ans ns).
Proof.
  intros Hinv Hstay Hflag qid q Hq. destruct (Hinv qid q Hq) as [Hw Hp]. split.
  - intros aid (a' & Ha' & Haq & Hf). simpl in Ha'.
    destruct (Hflag aid a' Ha' Hf) as (a & Ha & Hq' & Hf').
    apply Hw. exists a. split_and!; congruence.
  - intros aid Hptr. destruct (Hp aid Hptr) as (a & Ha & Haq).
    destruct (Hstay aid a Ha) as (a' & Ha' & Hq'). exists a'. simpl.
    split; congruence.
Qed.

(** Moving the pointer of a question to where its flagged answers are. *)
Lemma store_weak_inv_set_pointer s qid q p ns :
  store_weak_inv s → questions s !! qid = Some q →
  (∀ aid, accepted_in s qid aid → p = Some aid) →
  (∀ aid, p = Some aid → ∃ a, answers s !! aid = Some a ∧ Answer.questionId a = qid) →
  store_weak_inv (mkStore (<[qid := Question.set_acceptedAnswer q p]> (questions s))
                          (answers s) ns).
Proof.
  intros Hinv Hq Hflag Hptr qid' q' Hq'. simpl in Hq'.
  destruct (decide (qid' = qid)) as [->|Hne].
  - rewrite lookup_insert_eq in Hq'. injection Hq' as <-. split; simpl.
    + intros aid Hacc. by apply Hflag.
    + done.
  - rewrite lookup_insert_ne in Hq' by done. apply (Hinv qid' q' Hq').
Qed.

(** Flagging the answer a question points to. *)
Lemma store_weak_inv_flag_pointed s qid q id a ns :
  store_weak_inv s → questions s !! qid = Some q →
  Question.acceptedAnswer q = Some id →
  answers s !! id = Some a → Answer.questionId a = qid →
  store_weak_inv (mkStore (questions s) (<[id := Answer.accept a]> (answers s)) ns).
Proof.
  intros Hinv Hq Hp Ha Haq qid' q' Hq'. simpl in Hq'.
  destruct (Hinv qid' q' Hq') as [Hw Hptr]. split.
  - intros aid (x & Hx & Hxq & Hf). simpl in Hx.
    destruct (decide (id = aid)) as [->|Hne].
    + rewrite lookup_insert_eq in Hx. injection Hx as <-. simpl in Hxq. congruence.
    + rewrite lookup_insert_ne in Hx by done. apply Hw. by exists x.
  - intros aid Hp'. destruct (Hptr aid Hp') as (x & Hx & Hxq). simpl.
    destruct (decide (id = aid)) as [->|Hne].
    + exists (Answer.accept a). rewrite lookup_insert_eq. split; [done|]. simpl.
      congruence.
    + exists x. by rewrite lookup_insert_ne.
Qed.

Lemma store_weak_inv_ext s s' :
  questions s' = questions s → answers s' = answers s →
  store_weak_inv s → store_weak_inv s'.
Proof.
  intros Hq Ha Hinv qid q Hl. rewrite Hq in Hl. destruct (Hinv qid q Hl) as [Hw Hp].
  split.
  - intros aid. unfold accepted_in. rewrite Ha. apply Hw.
  - intros aid Hptr. rewrite Ha. by apply Hp.
Qed.

Lemma store_weak_inv_insert_same s id a a' ns :
  answers s !! id = Some a →
  Answer.questionId a' = Answer.questionId a →
  (Answer.isAccepted a' = true → Answer.isAccepted a = true) →
  store_weak_inv s → store_weak_inv (mkStore (questions s) (<[id := a']> (answers s)) ns).
Proof.
  intros Ha Hq Hf Hinv. apply store_weak_inv_mono; [done|..].
  - intros id' x Hx. rewrite lookup_insert. case_decide; [|by eauto].
    subst. exists a'. split; congruence.
  - intros id' x'. rewrite lookup_insert. case_decide; [|by eauto].
    subst. intros [= <-] Hf'. exists a. split_and!; auto.
Qed.

Lemma store_weak_inv_insert_question s id q q' ns :
  questions s !! id = Some q →
  Question.acceptedAnswer q' = Question.acceptedAnswer q →
  store_weak_inv s → store_weak_inv (mkStore (<[id := q']> (questions s)) (answers s) ns).
Proof.
  intros Hq Hp Hinv qid x Hx. simpl in Hx. rewrite lookup_insert in Hx.
  case_decide; [|by apply (Hinv qid x Hx)]. subst. injection Hx as <-.
  destruct (Hinv qid q Hq) as [Hw Hptr]. split.
  - intros aid Hacc. rewrite Hp. by apply Hw.
  - intros aid Hptr'. rewrite Hp in Hptr'. by apply Hptr.
Qed.

(** After [unaccept_previous] no answer of the question is flagged. *)
Lemma unaccept_previous_none_flagged s qid q aid :
  store_weak_inv s → questions s !! qid = Some q →
  ¬ accepted_in (AnswerRoutes.unaccept_previous s q) qid aid.
Proof.
  intros Hinv Hq (x & Hx & Hxq & Hf). destruct (Hinv qid q Hq) as [Hw Hptr].
  unfold AnswerRoutes.unaccept_previous in Hx.
  destruct (Question.acceptedAnswer q) as [p|] eqn:Hp.
  - destruct (Hptr p eq_refl) as (pa & Hpa & _). rewrite Hpa in Hx. simpl in Hx.
    rewrite lookup_insert in Hx. case_decide as Hid.
    + injection Hx as <-. done.
    + assert (Some p = Some aid) as [= ->] by (apply Hw; by exists x). done.
  - assert (None = Some aid) by (apply Hw; by exists x). done.
Qed.

Lemma unaccept_previous_weak_inv s q :
  store_weak_inv s → store_weak_inv (AnswerRoutes.unaccept_previous s q).
Proof.
  intros Hinv. unfold AnswerRoutes.unaccept_previous.
  destruct (Question.acceptedAnswer q) as [p|]; [|done].
  destruct (answers s !! p) as [pa|] eqn:Hp; [|done].
  by apply (store_weak_inv_insert_same s p pa).
Qed.

Lemma accept_store_weak_inv s inserted id u :
  store_weak_inv s → store_weak_inv (AnswerRoutes.accept s inserted id u).2.
Proof.
  intros Hinv. unfold AnswerRoutes.accept.
  destruct (answers s !! id) as [a|] eqn:Ha; [|done].
  destruct (Answer.isDeleted a); [done|].
  destruct (questions s !! Answer.questionId a) as [q|] eqn:Hq; [|done].
  destruct (Question.isDeleted q); [done|].
  case_decide; [done|]. cbn [snd].
  set (qid := Answer.questionId a) in *.
  set (s1 := AnswerRoutes.unaccept_previous s q).
  pose proof (unaccept_previous_weak_inv s q Hinv) as Hinv1. fold s1 in Hinv1.
  assert (∃ stored, answers s1 !! id = Some stored ∧ Answer.questionId stored = qid)
    as (stored & Hst & Hstq).
  { pose proof (unaccept_previous_lookup s q id) as H0. rewrite Ha in H0.
    destruct H0 as [H0|H0]; eauto. }
  assert (questions s1 !! qid = Some q) as Hq1
    by (unfold s1; by rewrite questions_unaccept_previous).
  pose proof (store_weak_inv_set_pointer s1 qid q (Some id) (notifications s1)
                Hinv1 Hq1) as Hpointed.
  apply (store_weak_inv_ext
           (mkStore (<[qid := Question.set_acceptedAnswer q (Some id)]> (questions s1))
                    (if Answer.isAccepted a then answers s1
                     else <[id := Answer.accept stored]> (answers s1))
                    (notifications s1))).
  { rewrite questions_try_notify. unfold save_question. simpl.
    by rewrite questions_save_accepted. }
  { rewrite answers_try_notify. unfold save_question. simpl.
    by rewrite (answers_save_accepted s1 id a stored Hst). }
  destruct (Answer.isAccepted a).
  - apply Hpointed.
    + intros aid Hacc. by destruct (unaccept_previous_none_flagged s qid q aid Hinv Hq).
    + intros aid [= <-]. eauto.
  - pose proof (store_weak_inv_flag_pointed
             (mkStore (<[qid := Question.set_acceptedAnswer q (Some id)]> (questions s1))
                      (answers s1) (notifications s1))
             qid (Question.set_acceptedAnswer q (Some id)) id stored
             (notifications s1)) as Hflagged.
    simpl in Hflagged. apply Hflagged; [|apply lookup_insert_eq|done..].
    apply Hpointed.
    + intros aid Hacc. by destruct (unaccept_previous_none_flagged s qid q aid Hinv Hq).
    + intros aid [= <-]. eauto.
Qed.

Lemma unaccept_store_weak_inv s id u :
  store_weak_inv s → store_weak_inv (AnswerRoutes.unaccept s id u).2.
Proof.
  intros Hinv. unfold AnswerRoutes.unaccept.
  destruct (answers s !! id) as [a|] eqn:Ha; [|done].
  destruct (Answer.isDeleted a); [done|].
  destruct (questions s !! Answer.questionId a) as [q|] eqn:Hq; [|done].
  destruct (Question.isDeleted q); [done|].
  case_decide; [done|].
  destruct (Answer.isAccepted a) eqn:Hf; [|done]. cbn [negb snd].
  set (qid := Answer.questionId a) in *.
  apply (store_weak_inv_set_pointer
           (mkStore (questions s) (<[id := Answer.unaccept a]> (answers s))
                    (notifications s)) qid q None).
  - by apply (store_weak_inv_insert_same s id a).
  - done.
  - intros aid (x & Hx & Hxq & Hxf). simpl in Hx. rewrite lookup_insert in Hx.
    case_decide as Hid; [by injection Hx as <-|].
    destruct (Hinv qid q Hq) as [Hw _].
    assert (Question.acceptedAnswer q = Some aid) as H1 by (apply Hw; by exists x).
    assert (Question.acceptedAnswer q = Some id) as H2 by (apply Hw; by exists a).
    congruence.
  - done.
Qed.

Lemma store_weak_inv_notified s o : store_weak_inv s → store_weak_inv (try_notify s o).
Proof.
  apply store_weak_inv_ext; [apply questions_try_notify | apply answers_try_notify].
Qed.

(** Every request keeps the weak invariant. *)
Lemma dispatch_store_weak_inv s r : store_weak_inv s → store_weak_inv (dispatch s r).2.
Proof.
  intros Hinv.
  destruct r as [now ins id0 u raw|now ins id0 u raw|[id0 u ins|id0 u]
                 |id0 u content|id0 u|id0 u|new ins id0 u content]; simpl.
  - unfold QuestionRoutes.vote.
    destruct (validate_vote raw) as [d|]; [|done].
    destruct (questions s !! id0) as [q|] eqn:Hq; [|done].
    destruct (Question.isDeleted q); [done|]. case_decide; [done|]. cbn [snd].
    apply store_weak_inv_notified. by apply (store_weak_inv_insert_question s id0 q).
  - unfold AnswerRoutes.vote.
    destruct (validate_vote raw) as [d|]; [|done].
    destruct (answers s !! id0) as [a|] eqn:Ha; [|done].
    destruct (Answer.isDeleted a); [done|]. case_decide; [done|]. cbn [snd].
    apply store_weak_inv_notified. by apply (store_weak_inv_insert_same s id0 a).
  - by apply accept_store_weak_inv.
  - by apply unaccept_store_weak_inv.
  - unfold AnswerCrud.update_answer.
    destruct (isLength_min 30 content); [|done]. simpl.
    destruct (answers s !! id0) as [a|] eqn:Ha; [|done].
    destruct (Answer.isDeleted a); [done|]. destruct (_ && _); [done|]. simpl.
    by apply (store_weak_inv_insert_same s id0 a).
  - unfold AnswerRoutes.delete_answer.
    destruct (answers s !! id0) as [a|] eqn:Ha; [|done].
    destruct (Answer.isDeleted a); [done|]. destruct (_ && _); [done|].
    destruct (Answer.isAccepted a); [done|]. simpl.
    by apply (store_weak_inv_insert_same s id0 a).
  - unfold QuestionCrud.delete_question.
    destruct (questions s !! id0) as [q|] eqn:Hq; [|done].
    destruct (Question.isDeleted q); [done|]. destruct (_ && _); [done|]. simpl.
    by apply (store_weak_inv_insert_question s id0 q).
  - unfold QuestionCrud.post_answer.
    destruct (isLength_min 30 content); [|done]. simpl.
    destruct (questions s !! id0) as [q|]; [|done].
    destruct (Question.isDeleted q); [done|].
    destruct (Question.isClosed q); [done|].
    destruct (answers s !! new) as [a|] eqn:Hnew; [done|]. cbn [snd].
    apply store_weak_inv_notified. apply store_weak_inv_mono; [done|..].
    + intros id' x Hx. exists x. split; [|done].
      rewrite lookup_insert_ne; [done|]. intros ->. congruence.
    + intros id' x'. rewrite lookup_insert. case_decide; [|by eauto].
      by intros [= <-].
Qed.

End invariants.

(** ** The invariants along every run *)

(** X6. What the routes keep of the acceptance invariant.  If in every
    question a flagged answer is the one the question points to, and a
    pointer names a stored answer of the question, then the same holds
    after any sequence of votes, accepts (of the accepted answer too),
    unaccepts, edits and deletions of answers, deletions of questions and
    new answers.  So at most one answer of a question is ever flagged;
    the answer pointed to may be unflagged. *)
Theorem acceptance_invariant_under_all_requests
    (s : Store) (rs : list Request) (qid : ObjectId) (q : Question.t) :
  store_weak_inv s →
  questions (run s rs) !! qid = Some q →
  (∀ aid1 aid2,
     accepted_in (run s rs) qid aid1 → accepted_in (run s rs) qid aid2 → aid1 = aid2)
  ∧ (∀ aid, accepted_in (run s rs) qid aid → Question.acceptedAnswer q = Some aid)
  ∧ (∀ aid, Question.acceptedAnswer q = Some aid →
       ∃ a, answers (run s rs) !! aid = Some a ∧ Answer.questionId a = qid).
Proof.
  intros Hinv Hq.
  destruct (run_invariant store_weak_inv dispatch_store_weak_inv s rs Hinv qid q Hq)
    as [Hw Hp].
  split_and!; [|done..]. intros aid1 aid2 H1%Hw H2%Hw. congruence.
Qed.

Lemma acceptance_invariant_under_all_requests_witness :
  ∃ q, questions (run forum reaccept_traffic) !! 10%N = Some q
    ∧ Question.acceptedAnswer q = Some 21%N
    ∧ ∀ aid, accepted_in (run forum reaccept_traffic) 10%N aid → aid = 21%N.
Proof.
  assert (none_accepted forum) as Hnone.
  { split; apply (bool_decide_unpack _); vm_compute; exact I. }
  eexists. split; [vm_compute; reflexivity|].
  destruct (acceptance_invariant_under_all_requests forum reaccept_traffic 10%N _
              (store_inv_weak forum (none_accepted_store_inv forum Hnone)) eq_refl)
    as (_ & Hw & _).
  split; [reflexivity|]. intros aid Hacc. apply Hw in Hacc. by injection Hacc.
Defined.

(** X26. The full acceptance invariant (the pointer names an answer exactly
    when that answer is a flagged answer of the question) survives every
    sequence of these requests in which no accept is asked for an answer
    whose flag is already set. *)
Theorem acceptance_invariant_without_reaccept
    (s : Store) (rs : list Request) (qid : ObjectId) (q : Question.t) :
  store_inv s → never_reaccepts s rs →
  questions (run s rs) !! qid = Some q →
  (∀ aid1 aid2,
     accepted_in (run s rs) qid aid1 → accepted_in (run s rs) qid aid2 → aid1 = aid2)
  ∧ (∀ aid, Question.acceptedAnswer q = Some aid ↔ accepted_in (run s rs) qid aid).
Proof.
  intros Hinv Hn Hq. pose proof (run_store_inv s rs Hinv Hn qid q Hq) as Hqi.
  split; [|exact Hqi]. intros aid1 aid2. by apply accepted_in_unique with q.
Qed.

Lemma acceptance_invariant_without_reaccept_witness :
  ∃ q, questions (run forum forum_traffic) !! 10%N = Some q
    ∧ Question.acceptedAnswer q = Some 20%N
    ∧ accepted_in (run forum forum_traffic) 10%N 20%N.
Proof.
  assert (none_accepted forum) as Hnone.
  { split; apply (bool_decide_unpack _); vm_compute; exact I. }
  assert (never_reaccepts forum forum_traffic) as Hn.
  { apply (bool_decide_unpack _). vm_compute. exact I. }
  eexists. split; [vm_compute; reflexivity|].
  destruct (acceptance_invariant_without_reaccept forum forum_traffic 10%N _
              (none_accepted_store_inv forum Hnone) Hn eq_refl) as [_ Hptr].
  split; [reflexivity|]. by apply Hptr.
Defined.

(** X7. If every stored question and answer has one ledger entry per
    voter and a score equal to the sum of its entries, the same holds
    after any sequence of requests. *)
Theorem ledgers_kept_under_all_requests (s : Store) (rs : list Request) :
  ledgers_ok s →
  (∀ id q, questions (run s rs) !! id = Some q →
     NoDup (voters (Question.voteHistory q))
     ∧ Question.votes q = ledger_sum (Question.voteHistory q))
  ∧ (∀ id a, answers (run s rs) !! id = Some a →
       NoDup (voters (Answer.voteHistory a))
       ∧ Answer.votes a = ledger_sum (Answer.voteHistory a)).
Proof. intros Hs. apply (run_invariant ledgers_ok dispatch_ledgers_ok s rs Hs). Qed.

Lemma ledgers_kept_under_all_requests_witness :
  ∃ a, answers (run forum forum_traffic) !! 20%N = Some a
    ∧ NoDup (voters (Answer.voteHistory a))
    ∧ Answer.votes a = ledger_sum (Answer.voteHistory a).
Proof.
  destruct (ledgers_kept_under_all_requests forum forum_traffic) as [_ H].
  - split; apply (bool_decide_unpack _); vm_compute; exact I.
  - destruct (answers (run forum forum_traffic) !! 20%N) as [a|] eqn:Hl;
      [|by vm_compute in Hl].
    exists a. split; [done|]. exact (H 20%N a Hl).
Defined.

(** X8. If no stored item has its author among its voters, none has
    after any sequence of requests: the self-vote check of the two vote
    routes is the only way into a ledger. *)
Theorem no_self_vote_under_all_requests (s : Store) (rs : list Request) :
  no_self_votes s →
  (∀ id q, questions (run s rs) !! id = Some q →
     Question.askedBy q ∉ voters (Question.voteHistory q))
  ∧ (∀ id a, answers (run s rs) !! id = Some a →
       Answer.answeredBy a ∉ voters (Answer.voteHistory a)).
Proof. intros Hs. apply (run_invariant no_self_votes dispatch_no_self_votes s rs Hs). Qed.

Lemma no_self_vote_under_all_requests_witness :
  ∃ a, answers (run forum forum_traffic) !! 20%N = Some a
    ∧ Answer.answeredBy a ∉ voters (Answer.voteHistory a).
Proof.
  destruct (no_self_vote_under_all_requests forum forum_traffic) as [_ H].
  - split; apply (bool_decide_unpack _); vm_compute; exact I.
  - destruct (answers (run forum forum_traffic) !! 20%N) as [a|] eqn:Hl;
      [|by vm_compute in Hl].
    exists a. split; [done|]. exact (H 20%N a Hl).
Defined.

(** X9. If no stored answer is both accepted and soft-deleted, none is
    after any sequence of requests: accept refuses deleted answers and
    delete refuses accepted ones. *)
Theorem no_deleted_accepted_answer (s : Store) (rs : list Request) :
  no_deleted_accepted s →
  ∀ id a, answers (run s rs) !! id = Some a →
    Answer.isDeleted a = true → Answer.isAccepted a = false.
Proof.
  intros Hs. apply (run_invariant no_deleted_accepted dispatch_no_deleted_accepted s rs Hs).
Qed.

Lemma no_deleted_accepted_answer_witness :
  ∃ a, answers (run forum forum_traffic) !! 21%N = Some a
    ∧ Answer.isDeleted a = true ∧ Answer.isAccepted a = false.
Proof.
  destruct (answers (run forum forum_traffic) !! 21%N) as [a|] eqn:Hl;
    [|by vm_compute in Hl].
  assert (Answer.isDeleted a = true) as Hd.
  { revert Hl. vm_compute. by intros [= <-]. }
  exists a. split_and!; [done | done |].
  apply (no_deleted_accepted_answer forum forum_traffic) with 21%N; [|done..].
  apply (bool_decide_unpack _). vm_compute. exact I.
Defined.

(** ** What no request does *)

Section never.

Implicit Types (s : Store) (r : Request) (rs : list Request) (id : ObjectId).

Lemma answer_change_of_deleted o a' :
  answer_change o a' →
  ∀ a, o = Some a → Answer.isDeleted a = true → Answer.isAccepted a = false → a' = a.
Proof.
  destruct 1; intros a0 [= <-] Hd Hf; try congruence.
  by apply unaccept_unflagged.
Qed.

Lemma question_change_of_deleted q q' :
  question_change q q' → Question.isDeleted q = true → q' = q.
Proof. destruct 1; congruence. Qed.

Lemma dispatch_deleted_answer s r id a :
  answers s !! id = Some a → Answer.isDeleted a = true → Answer.isAccepted a = false →
  answers (dispatch s r).2 !! id = Some a.
Proof.
  intros Ha Hd Hf. pose proof (dispatch_answers_step s r id) as Hstep.
  destruct (answers (dispatch s r).2 !! id) as [a'|]; simpl in Hstep; [|congruence].
  by rewrite (answer_change_of_deleted _ _ Hstep a Ha Hd Hf).
Qed.

Lemma dispatch_deleted_question s r id q :
  questions s !! id = Some q → Question.isDeleted q = true →
  questions (dispatch s r).2 !! id = Some q.
Proof.
  intros Hq Hd. pose proof (dispatch_questions_step s r id) as Hstep.
  rewrite Hq in Hstep.
  destruct (questions (dispatch s r).2 !! id) as [q'|]; simpl in Hstep; [|done].
  by rewrite (question_change_of_deleted _ _ Hstep Hd).
Qed.

Lemma answer_change_origin o a' a :
  answer_change o a' → o = Some a →
  Answer.questionId a' = Answer.questionId a ∧ Answer.answeredBy a' = Answer.answeredBy a.
Proof. destruct 1; intros [= <-]; done. Qed.

Lemma question_change_origin q q' :
  question_change q q' → Question.askedBy q' = Question.askedBy q.
Proof. by destruct 1. Qed.

Lemma dispatch_notifications s r :
  ∃ l, notifications (dispatch s r).2 = notifications s ++ l
       ∧ (length l ≤ 1)%nat ∧ Forall no_self_notice l.
Proof.
  assert (∀ s', notifications s' = notifications s →
            ∃ l, notifications s' = notifications s ++ l
                 ∧ (length l ≤ 1)%nat ∧ Forall no_self_notice l) as Hsame.
  { intros s' ->. exists []. rewrite app_nil_r.
    split_and!; [done | simpl; lia | constructor]. }
  assert (∀ n, no_self_notice n →
            ∃ l, notifications s ++ [n] = notifications s ++ l
                 ∧ (length l ≤ 1)%nat ∧ Forall no_self_notice l) as Hone.
  { intros n Hn. exists [n]. split_and!; [done | simpl; lia | by constructor]. }
  destruct r as [now ins id0 u raw|now ins id0 u raw|[id0 u ins|id0 u]
                 |id0 u content|id0 u|id0 u|new ins id0 u content]; simpl.
  - unfold QuestionRoutes.vote.
    destruct (validate_vote raw) as [d|]; [|by apply Hsame].
    destruct (questions s !! id0) as [q|]; [|by apply Hsame].
    destruct (Question.isDeleted q); [by apply Hsame|].
    destruct (decide (Question.askedBy q = _id u)) as [Hown|Hown]; [by apply Hsame|].
    cbn [snd]. unfold NotificationService.notifyVoteReceived. simpl.
    rewrite decide_False by congruence.
    destruct ins; [|by apply Hsame]. simpl. apply Hone.
    intros _. simpl. congruence.
  - unfold AnswerRoutes.vote.
    destruct (validate_vote raw) as [d|]; [|by apply Hsame].
    destruct (answers s !! id0) as [a|]; [|by apply Hsame].
    destruct (Answer.isDeleted a); [by apply Hsame|].
    destruct (decide (Answer.answeredBy a = _id u)) as [Hown|Hown]; [by apply Hsame|].
    cbn [snd]. unfold NotificationService.notifyVoteReceived. simpl.
    rewrite decide_False by congruence.
    destruct ins; [|by apply Hsame]. simpl. apply Hone.
    intros _. simpl. congruence.
  - unfold AnswerRoutes.accept.
    destruct (answers s !! id0) as [a|]; [|by apply Hsame].
    destruct (Answer.isDeleted a); [by apply Hsame|].
    destruct (questions s !! Answer.questionId a) as [q|]; [|by apply Hsame].
    destruct (Question.isDeleted q); [by apply Hsame|].
    case_decide; [by apply Hsame|]. cbn [snd].
    assert (notifications (AnswerRoutes.unaccept_previous s q) = notifications s)
      as Hprev.
    { unfold AnswerRoutes.unaccept_previous. by repeat case_match. }
    destruct ins; simpl; rewrite ?notifications_save_accepted, ?Hprev.
    + apply Hone. by intros [[=]|[=]].
    + by apply Hsame.
  - unfold AnswerRoutes.unaccept. repeat case_match; by apply Hsame.
  - unfold AnswerCrud.update_answer. repeat case_match; by apply Hsame.
  - unfold AnswerRoutes.delete_answer. repeat case_match; by apply Hsame.
  - unfold QuestionCrud.delete_question. repeat case_match; by apply Hsame.
  - unfold QuestionCrud.post_answer.
    destruct (isLength_min 30 content); [|by apply Hsame]. simpl.
    destruct (questions s !! id0) as [q|]; [|by apply Hsame].
    destruct (Question.isDeleted q); [by apply Hsame|].
    destruct (Question.isClosed q); [by apply Hsame|].
    destruct (answers s !! new); [by apply Hsame|].
    cbn [snd]. unfold notifyQuestionAnswered. simpl.
    destruct (decide (Question.askedBy q = _id u)) as [Hown|Hown]; [by apply Hsame|].
    destruct ins; [|by apply Hsame]. simpl. apply Hone. by intros _.
Qed.

End never.

(** X10. A soft-deleted document is never touched again: whatever of
    these requests follow, a deleted question stays exactly as it is, from
    any store; and a deleted answer stays exactly as it is when no answer
    in the store is both accepted and deleted (an accept would clear the
    flag of a deleted answer that is the accepted one). *)
Theorem deleted_documents_frozen (s : Store) (rs : list Request) :
  (∀ id q, questions s !! id = Some q → Question.isDeleted q = true →
     questions (run s rs) !! id = Some q)
  ∧ (no_deleted_accepted s →
     ∀ id a, answers s !! id = Some a → Answer.isDeleted a = true →
       answers (run s rs) !! id = Some a).
Proof.
  split.
  - revert s. induction rs as [|r rs IH]; intros s id q Hq Hd; [done|]. simpl.
    apply IH; [|done]. by apply dispatch_deleted_question.
  - revert s. induction rs as [|r rs IH]; intros s Hs id a Ha Hd; [done|]. simpl.
    apply IH; [by apply dispatch_no_deleted_accepted| |done].
    apply dispatch_deleted_answer; [done..|]. by apply (Hs id a).
Qed.

Lemma deleted_documents_frozen_witness :
  (∃ q, questions (run forum forum_traffic) !! 10%N = Some q
     ∧ Question.isDeleted q = true
     ∧ questions (run (run forum forum_traffic) forum_traffic) !! 10%N = Some q)
  ∧ (∃ a, answers (run forum forum_traffic) !! 21%N = Some a
       ∧ Answer.isDeleted a = true
       ∧ answers (run (run forum forum_traffic) forum_traffic) !! 21%N = Some a).
Proof.
  destruct (deleted_documents_frozen (run forum forum_traffic) forum_traffic)
    as [Hqs Has].
  split.
  - destruct (questions (run forum forum_traffic) !! 10%N) as [q|] eqn:Hl;
      [|by vm_compute in Hl].
    assert (Question.isDeleted q = true) as Hd.
    { revert Hl. vm_compute. by intros [= <-]. }
    exists q. split_and!; [done | done |]. by apply Hqs.
  - destruct (answers (run forum forum_traffic) !! 21%N) as [a|] eqn:Hl;
      [|by vm_compute in Hl].
    assert (Answer.isDeleted a = true) as Hd.
    { revert Hl. vm_compute. by intros [= <-]. }
    exists a. split_and!; [done | done |]. apply Has; [|done..].
    apply (bool_decide_unpack _). vm_compute. exact I.
Defined.

(** X11. None of these requests removes a question or an answer, and
    none changes who asked a question, who wrote an answer or which
    question an answer belongs to. *)
Theorem documents_stay_and_keep_their_origin
    (s : Store) (rs : list Request) (id : ObjectId) :
  (∀ a, answers s !! id = Some a →
     ∃ a', answers (run s rs) !! id = Some a'
       ∧ Answer.questionId a' = Answer.questionId a
       ∧ Answer.answeredBy a' = Answer.answeredBy a)
  ∧ (∀ q, questions s !! id = Some q →
       ∃ q', questions (run s rs) !! id = Some q'
         ∧ Question.askedBy q' = Question.askedBy q).
Proof.
  revert s. induction rs as [|r rs IH]; intros s; [simpl; by eauto 10|]. simpl.
  destruct (IH (dispatch s r).2) as (IHa & IHq).
  pose proof (dispatch_answers_step s r id) as Ha.
  pose proof (dispatch_questions_step s r id) as Hq.
  split.
  - intros a Hl. destruct (answers (dispatch s r).2 !! id) as [a1|];
      simpl in Ha; [|congruence].
    destruct (answer_change_origin _ _ a Ha Hl) as [H1 H2].
    destruct (IHa a1 eq_refl) as (a' & ? & ? & ?). exists a'. split_and!; congruence.
  - intros q Hl. rewrite Hl in Hq.
    destruct (questions (dispatch s r).2 !! id) as [q1|]; simpl in Hq; [|done].
    pose proof (question_change_origin _ _ Hq).
    destruct (IHq q1 eq_refl) as (q' & ? & ?). exists q'. split; congruence.
Qed.

(** X12. A request that is not answered with 200 or 201 leaves the
    whole store, notifications included, exactly as it was. *)
Theorem refused_request_changes_nothing (s : Store) (r : Request) :
  status (dispatch s r).1 ≠ 200 → status (dispatch s r).1 ≠ 201 →
  (dispatch s r).2 = s.
Proof.
  destruct r as [now ins id0 u raw|now ins id0 u raw|[id0 u ins|id0 u]
                 |id0 u content|id0 u|id0 u|new ins id0 u content]; simpl;
    [ unfold QuestionRoutes.vote | unfold AnswerRoutes.vote
    | unfold AnswerRoutes.accept | unfold AnswerRoutes.unaccept
    | unfold AnswerCrud.update_answer | unfold AnswerRoutes.delete_answer
    | unfold QuestionCrud.delete_question | unfold QuestionCrud.post_answer ];
    repeat case_match; simpl; done.
Qed.

Lemma refused_request_changes_nothing_witness :
  (dispatch forum_accepted (req_delete_answer 20%N bob)).2 = forum_accepted
  ∧ (dispatch forum (req_vote_answer 1 true 20%N carol "sideways")).2 = forum.
Proof.
  split; apply refused_request_changes_nothing; by vm_compute.
Defined.

(** X13. The notification collection only grows, by at most one
    notification per request. *)
Theorem notifications_append_only (s : Store) (rs : list Request) :
  notifications s `prefix_of` notifications (run s rs)
  ∧ (length (notifications (run s rs)) ≤ length (notifications s) + length rs)%nat.
Proof.
  revert s. induction rs as [|r rs IH]; intros s; simpl.
  - split; [done | lia].
  - destruct (IH (dispatch s r).2) as [Hp Hl].
    destruct (dispatch_notifications s r) as (l & Hn & Hlen & _).
    rewrite Hn in Hp, Hl. split.
    + etrans; [|exact Hp]. by apply prefix_app_r.
    + rewrite length_app in Hl. lia.
Qed.

(** X14. Nobody is told about their own vote or their own answer: if no
    vote or answer notification in the collection is addressed to its
    sender, none is after any sequence of requests. *)
Theorem no_notification_to_oneself (s : Store) (rs : list Request) :
  Forall no_self_notice (notifications s) →
  Forall no_self_notice (notifications (run s rs)).
Proof.
  revert s. induction rs as [|r rs IH]; intros s Hs; [done|]. simpl. apply IH.
  destruct (dispatch_notifications s r) as (l & -> & _ & Hl).
  by apply Forall_app.
Qed.

Lemma no_notification_to_oneself_witness :
  Forall no_self_notice (notifications (run forum forum_traffic))
  ∧ length (notifications (run forum forum_traffic)) = 4%nat.
Proof.
  split; [|reflexivity].
  apply (no_notification_to_oneself forum forum_traffic). constructor.
Defined.

Lemma documents_stay_and_keep_their_origin_witness :
  ∃ a', answers (run forum forum_traffic) !! 21%N = Some a'
    ∧ Answer.questionId a' = 10%N ∧ Answer.answeredBy a' = 3%N.
Proof.
  destruct (documents_stay_and_keep_their_origin forum forum_traffic 21%N)
    as (Ha & _).
  exact (Ha answer21 eq_refl).
Defined.

(** ** How accept, unaccept and deletion compose *)

Section compose.

Implicit Types (s : Store) (id qid : ObjectId) (u : User) (a : Answer.t) (q : Question.t).

(** Under the invariant a successful accept leaves the question pointing
    to the target and every other answer of the question unflagged,
    whatever was accepted before; the target ends flagged when its flag was
    clear and unflagged when it was set. *)
Lemma accept_outcome s inserted id u a q :
  store_inv s →
  answers s !! id = Some a → Answer.isDeleted a = false →
  questions s !! Answer.questionId a = Some q → Question.isDeleted q = false →
  Question.askedBy q = _id u →
  status (AnswerRoutes.accept s inserted id u).1 = 200
  ∧ answers (AnswerRoutes.accept s inserted id u).2
    = (if Answer.isAccepted a
       then clear_accepted (Answer.questionId a) <$> answers s
       else <[id := Answer.accept a]>
              (clear_accepted (Answer.questionId a) <$> answers s))
  ∧ questions (AnswerRoutes.accept s inserted id u).2
    = <[Answer.questionId a := Question.set_acceptedAnswer q (Some id)]> (questions s).
Proof.
  intros Hinv Ha Hd Hq Hqd Hown. unfold AnswerRoutes.accept.
  rewrite Ha, Hd, Hq, Hqd, decide_False by (by intros []). cbn zeta. cbn [fst snd].
  rewrite answers_try_notify, questions_try_notify. unfold save_question. simpl.
  rewrite questions_save_accepted, questions_unaccept_previous.
  rewrite (answers_save_accepted _ id a (clear_accepted (Answer.questionId a) a))
    by (by rewrite (unaccept_previous_answers s _ q Hinv Hq), lookup_fmap, Ha).
  by rewrite (unaccept_previous_answers s _ q Hinv Hq), accept_clear_accepted.
Qed.

Lemma clear_accepted_idemp qid a :
  clear_accepted qid (clear_accepted qid a) = clear_accepted qid a.
Proof.
  unfold clear_accepted. destruct (decide (Answer.questionId a = qid)); [|by rewrite decide_False].
  by rewrite decide_True.
Qed.

Lemma clear_accepted_accept qid a :
  Answer.questionId a = qid → clear_accepted qid (Answer.accept a) = clear_accepted qid a.
Proof. intros Hq. unfold clear_accepted. simpl. by rewrite !decide_True. Qed.

Lemma unaccept_accept a : Answer.isAccepted a = false → Answer.unaccept (Answer.accept a) = a.
Proof. destruct a; simpl; by intros ->. Qed.

End compose.

(** X15. The last accept wins: under the acceptance invariant, when the
    question's author accepts answer A and then answer B of the same
    question, B not being flagged at the start, questions and answers end
    up exactly as if only B had been accepted, whatever was accepted
    before (A included). *)
Theorem last_accept_wins
    (s : Store) (i1 i2 i3 : bool) (A B : ObjectId) (u : User)
    (a b : Answer.t) (q : Question.t) :
  store_inv s →
  answers s !! A = Some a → Answer.isDeleted a = false →
  answers s !! B = Some b → Answer.isDeleted b = false →
  Answer.isAccepted b = false →
  Answer.questionId a = Answer.questionId b → A ≠ B →
  questions s !! Answer.questionId b = Some q → Question.isDeleted q = false →
  Question.askedBy q = _id u →
  let s_ab := (AnswerRoutes.accept (AnswerRoutes.accept s i1 A u).2 i2 B u).2 in
  let s_b := (AnswerRoutes.accept s i3 B u).2 in
  answers s_ab = answers s_b ∧ questions s_ab = questions s_b.
Proof.
  intros Hinv Ha Had Hb Hbd Hbf Hab HAB Hq Hqd Hown. cbn zeta.
  set (qid := Answer.questionId b) in *.
  destruct (accept_outcome s i1 A u a q) as (_ & Ha1 & Hq1);
    [done | done | done | by rewrite Hab | done | done |].
  destruct (accept_outcome s i3 B u b q) as (_ & Ha3 & Hq3); [done..|].
  rewrite Hab in Ha1, Hq1. fold qid in Ha3, Hq3. rewrite Hbf in Ha3.
  rewrite Ha3, Hq3.
  set (s1 := (AnswerRoutes.accept s i1 A u).2) in *.
  (* the second request, on the store the first one left *)
  assert (clear_accepted qid b = b) as Hbb.
  { unfold clear_accepted. rewrite decide_True by done. by apply unaccept_unflagged. }
  assert (∃ x, answers s1 !! A = Some x ∧ Answer.unaccept x = clear_accepted qid a
               ∧ <[A := clear_accepted qid a]> (answers s1)
                 = clear_accepted qid <$> answers s) as (x & HxA & Hxu & Hcleared).
  { rewrite Ha1. destruct (Answer.isAccepted a) eqn:Haf.
    - exists (clear_accepted qid a). rewrite lookup_fmap, Ha. split; [done|]. split.
      + unfold clear_accepted. by rewrite decide_True by done.
      + apply insert_id. by rewrite lookup_fmap, Ha.
    - exists (Answer.accept a). rewrite lookup_insert_eq. split; [done|]. split.
      + unfold clear_accepted. by rewrite decide_True by done.
      + rewrite insert_insert_eq. apply insert_id. by rewrite lookup_fmap, Ha. }
  assert (answers s1 !! B = Some b) as HbB.
  { rewrite Ha1. destruct (Answer.isAccepted a).
    - by rewrite lookup_fmap, Hb; simpl; rewrite Hbb.
    - by rewrite lookup_insert_ne, lookup_fmap, Hb by done; simpl; rewrite Hbb. }
  unfold AnswerRoutes.accept.
  rewrite HbB, Hbd. fold qid. rewrite Hq1, lookup_insert_eq. simpl.
  rewrite Hqd, decide_False by (by intros []). cbn zeta. cbn [fst snd].
  rewrite answers_try_notify, questions_try_notify. unfold save_question. simpl.
  rewrite questions_save_accepted, questions_unaccept_previous, Hq1.
  assert (answers (AnswerRoutes.unaccept_previous s1
                     (Question.set_acceptedAnswer q (Some A)))
          = clear_accepted qid <$> answers s) as Hprev.
  { unfold AnswerRoutes.unaccept_previous. simpl. rewrite HxA. simpl.
    by rewrite Hxu. }
  rewrite (answers_save_accepted _ B b b)
    by (by rewrite Hprev, lookup_fmap, Hb; simpl; rewrite Hbb).
  rewrite Hbf, Hprev. split; [done|]. by rewrite insert_insert_eq.
Qed.

Lemma last_accept_wins_witness :
  answers (AnswerRoutes.accept (AnswerRoutes.accept forum_accepted true 20%N alice).2
             true 21%N alice).2
  = answers (AnswerRoutes.accept forum_accepted false 21%N alice).2.
Proof.
  assert (none_accepted forum) as Hnone.
  { split; apply (bool_decide_unpack _); vm_compute; exact I. }
  assert (store_inv forum_accepted) as Hinv.
  { apply accept_store_inv_unflagged; [by apply none_accepted_store_inv | by vm_compute]. }
  destruct (last_accept_wins forum_accepted true true false 20%N 21%N alice
              (Answer.accept answer20) answer21
              (Question.set_acceptedAnswer question10 (Some 20%N)) Hinv) as [Ha _];
    [reflexivity | reflexivity | reflexivity | reflexivity | reflexivity | reflexivity
    | discriminate | reflexivity | reflexivity | reflexivity | exact Ha].
Defined.

(** X16. Accept followed by unaccept is a round trip: when the question
    has no accepted answer and the target is unflagged, the two requests
    by the question's author succeed and leave questions and answers
    exactly as they were. *)
Theorem accept_then_unaccept_restores
    (s : Store) (inserted : bool) (id : ObjectId) (u : User)
    (a : Answer.t) (q : Question.t) :
  answers s !! id = Some a → Answer.isDeleted a = false →
  Answer.isAccepted a = false →
  questions s !! Answer.questionId a = Some q → Question.isDeleted q = false →
  Question.askedBy q = _id u → Question.acceptedAnswer q = None →
  let s1 := (AnswerRoutes.accept s inserted id u).2 in
  status (AnswerRoutes.accept s inserted id u).1 = 200
  ∧ status (AnswerRoutes.unaccept s1 id u).1 = 200
  ∧ answers (AnswerRoutes.unaccept s1 id u).2 = answers s
  ∧ questions (AnswerRoutes.unaccept s1 id u).2 = questions s.
Proof.
  intros Ha Hd Hf Hq Hqd Hown Hp. cbn zeta.
  assert (status (AnswerRoutes.accept s inserted id u).1 = 200
          ∧ answers (AnswerRoutes.accept s inserted id u).2
            = <[id := Answer.accept a]> (answers s)
          ∧ questions (AnswerRoutes.accept s inserted id u).2
            = <[Answer.questionId a := Question.set_acceptedAnswer q (Some id)]>
                (questions s)) as (Hst & Ha1 & Hq1).
  { unfold AnswerRoutes.accept.
    rewrite Ha, Hd, Hq, Hqd, decide_False by (by intros []). cbn zeta. cbn [fst snd].
    rewrite answers_try_notify, questions_try_notify. unfold save_question. simpl.
    rewrite questions_save_accepted, questions_unaccept_previous.
    assert (AnswerRoutes.unaccept_previous s q = s) as ->
      by (unfold AnswerRoutes.unaccept_previous; by rewrite Hp).
    by rewrite (answers_save_accepted _ id a a Ha), Hf. }
  split; [done|]. unfold AnswerRoutes.unaccept.
  rewrite Ha1, Hq1, lookup_insert_eq. simpl. rewrite Hd, lookup_insert_eq. simpl.
  rewrite Hqd, decide_False by (by intros []). simpl.
  split; [done|]. rewrite Ha1, Hq1, !insert_insert_eq. split.
  - apply insert_id. rewrite Ha. f_equal. symmetry. by apply unaccept_accept.
  - apply insert_id. rewrite Hq. f_equal. by destruct q; simpl in *; subst.
Qed.

Lemma accept_then_unaccept_restores_witness :
  answers (AnswerRoutes.unaccept (AnswerRoutes.accept forum true 20%N alice).2
             20%N alice).2 = answers forum
  ∧ questions (AnswerRoutes.unaccept (AnswerRoutes.accept forum true 20%N alice).2
                 20%N alice).2 = questions forum.
Proof.
  destruct (accept_then_unaccept_restores forum true 20%N alice answer20 question10)
    as (_ & _ & Ha & Hq); [reflexivity..|].
  exact (conj Ha Hq).
Defined.

Section deleted_question.

Implicit Types (s : Store) (r : Request) (id qid : ObjectId) (a : Answer.t) (q : Question.t).

Lemma flag_kept_insert (m : gmap N Answer.t) id0 id a0 a x :
  m !! id0 = Some a0 →
  Answer.questionId x = Answer.questionId a0 → Answer.isAccepted x = Answer.isAccepted a0 →
  m !! id = Some a →
  ∃ a', <[id0 := x]> m !! id = Some a'
    ∧ Answer.questionId a' = Answer.questionId a
    ∧ Answer.isAccepted a' = Answer.isAccepted a.
Proof.
  intros H0 Hq Hf Ha. rewrite lookup_insert. case_decide; subst; [|by eauto].
  exists x. split; [done|]. split; congruence.
Qed.

(** One request leaves the flags of the answers of a deleted question
    alone. *)
Lemma dispatch_deleted_question_flags s r qid q id a :
  store_weak_inv s →
  questions s !! qid = Some q → Question.isDeleted q = true →
  answers s !! id = Some a → Answer.questionId a = qid →
  ∃ a', answers (dispatch s r).2 !! id = Some a'
    ∧ Answer.questionId a' = Answer.questionId a
    ∧ Answer.isAccepted a' = Answer.isAccepted a.
Proof.
  intros Hinv Hq Hqd Ha Haq.
  assert (∃ a', answers s !! id = Some a'
            ∧ Answer.questionId a' = Answer.questionId a
            ∧ Answer.isAccepted a' = Answer.isAccepted a) as Hsame by eauto.
  destruct r as [now ins id0 u raw|now ins id0 u raw|[id0 u ins|id0 u]
                 |id0 u content|id0 u|id0 u|new ins id0 u content]; simpl.
  - unfold QuestionRoutes.vote. repeat case_match; simpl;
      rewrite ?answers_try_notify; done.
  - unfold AnswerRoutes.vote.
    destruct (validate_vote raw) as [d|]; [|done].
    destruct (answers s !! id0) as [a0|] eqn:Ha0; [|done].
    destruct (Answer.isDeleted a0); [done|]. case_decide; [done|]. cbn [snd].
    rewrite answers_try_notify. simpl. by apply (flag_kept_insert _ id0 id a0 a).
  - unfold AnswerRoutes.accept.
    destruct (answers s !! id0) as [a0|] eqn:Ha0; [|done].
    destruct (Answer.isDeleted a0); [done|].
    destruct (questions s !! Answer.questionId a0) as [q0|] eqn:Hq0; [|done].
    destruct (Question.isDeleted q0) eqn:Hq0d; [done|].
    case_decide; [done|]. cbn [snd]. rewrite answers_try_notify. simpl.
    assert (Answer.questionId a0 ≠ qid) as Hother
      by (intros Heq; rewrite Heq in Hq0; congruence).
    assert (id0 ≠ id) as Hid by (intros Heq; subst id0; congruence).
    assert (answers (AnswerRoutes.unaccept_previous s q0) !! id = Some a) as Hprev.
    { unfold AnswerRoutes.unaccept_previous.
      destruct (Question.acceptedAnswer q0) as [p|] eqn:Hp; [|done].
      destruct (proj2 (Hinv _ q0 Hq0) p Hp) as (pa & Hpa & Hpq).
      rewrite Hpa. simpl. by rewrite lookup_insert_ne by (intros Heq; subst p; congruence). }
    exists a. split; [|done]. unfold AnswerRoutes.save_accepted.
    destruct (Answer.isAccepted a0); [done|].
    destruct (answers (AnswerRoutes.unaccept_previous s q0) !! id0); [|done].
    simpl. by rewrite lookup_insert_ne.
  - unfold AnswerRoutes.unaccept.
    destruct (answers s !! id0) as [a0|] eqn:Ha0; [|done].
    destruct (Answer.isDeleted a0); [done|].
    destruct (questions s !! Answer.questionId a0) as [q0|] eqn:Hq0; [|done].
    destruct (Question.isDeleted q0) eqn:Hq0d; [done|].
    case_decide; [done|]. destruct (Answer.isAccepted a0); [|done]. simpl.
    assert (Answer.questionId a0 ≠ qid) as Hother
      by (intros Heq; rewrite Heq in Hq0; congruence).
    rewrite lookup_insert_ne by (intros Heq; subst id0; congruence). done.
  - unfold AnswerCrud.update_answer.
    destruct (isLength_min 30 content); [|done]. simpl.
    destruct (answers s !! id0) as [a0|] eqn:Ha0; [|done].
    destruct (Answer.isDeleted a0); [done|]. destruct (_ && _); [done|]. simpl.
    by apply (flag_kept_insert _ id0 id a0 a).
  - unfold AnswerRoutes.delete_answer.
    destruct (answers s !! id0) as [a0|] eqn:Ha0; [|done].
    destruct (Answer.isDeleted a0); [done|]. destruct (_ && _); [done|].
    destruct (Answer.isAccepted a0); [done|]. simpl.
    by apply (flag_kept_insert _ id0 id a0 a).
  - unfold QuestionCrud.delete_question. by repeat case_match.
  - unfold QuestionCrud.post_answer.
    destruct (isLength_min 30 content); [|done]. simpl.
    destruct (questions s !! id0) as [q0|]; [|done].
    destruct (Question.isDeleted q0); [done|].
    destruct (Question.isClosed q0); [done|].
    destruct (answers s !! new) as [x|] eqn:Hnew; [done|]. cbn [snd].
    rewrite answers_try_notify. simpl.
    rewrite lookup_insert_ne by (intros Heq; subst new; congruence). done.
Qed.

End deleted_question.

(** X17. Deleting a question freezes its acceptance: under the
    acceptance invariant, whatever requests follow, the deleted question
    keeps its [acceptedAnswer] and each of its answers keeps its
    [isAccepted] flag. *)
Theorem deleted_question_freezes_acceptance
    (s : Store) (rs : list Request) (qid id : ObjectId)
    (q : Question.t) (a : Answer.t) :
  store_inv s →
  questions s !! qid = Some q → Question.isDeleted q = true →
  answers s !! id = Some a → Answer.questionId a = qid →
  questions (run s rs) !! qid = Some q
  ∧ ∃ a', answers (run s rs) !! id = Some a'
      ∧ Answer.isAccepted a' = Answer.isAccepted a.
Proof.
  intros Hinv%store_inv_weak. revert s a Hinv.
  induction rs as [|r rs IH]; intros s a Hinv Hq Hqd Ha Haq; [by eauto|].
  simpl.
  destruct (dispatch_deleted_question_flags s r qid q id a) as (a1 & Ha1 & Hq1 & Hf1);
    [done..|].
  destruct (IH (dispatch s r).2 a1) as (Hqq & a' & Ha' & Hf').
  - by apply dispatch_store_weak_inv.
  - by apply dispatch_deleted_question.
  - done.
  - done.
  - congruence.
  - split; [done|]. exists a'. split; congruence.
Qed.

Lemma deleted_question_freezes_acceptance_witness :
  ∃ a', answers (run (run forum forum_traffic) forum_traffic) !! 20%N = Some a'
    ∧ Answer.isAccepted a' = true.
Proof.
  assert (none_accepted forum) as Hnone.
  { split; apply (bool_decide_unpack _); vm_compute; exact I. }
  assert (never_reaccepts forum forum_traffic) as Hfresh.
  { apply (bool_decide_unpack _). vm_compute. exact I. }
  pose proof (run_store_inv forum forum_traffic
                (none_accepted_store_inv forum Hnone) Hfresh) as Hinv.
  destruct (questions (run forum forum_traffic) !! 10%N) as [q|] eqn:Hq;
    [|by vm_compute in Hq].
  destruct (answers (run forum forum_traffic) !! 20%N) as [a|] eqn:Ha;
    [|by vm_compute in Ha].
  assert (Question.isDeleted q = true) as Hqd.
  { revert Hq. vm_compute. by intros [= <-]. }
  assert (Answer.questionId a = 10%N ∧ Answer.isAccepted a = true) as [Haq Hf].
  { revert Ha. vm_compute. by intros [= <-]. }
  destruct (deleted_question_freezes_acceptance (run forum forum_traffic)
              forum_traffic 10%N 20%N q a Hinv Hq Hqd Ha Haq) as (_ & a' & Ha' & Hf').
  exists a'. split; [done | congruence].
Defined.

(** X18. Deleting a question does not cascade to its answers: the
    deletion by the author or an admin leaves the answer collection as it
    was, a live answer of the deleted question still takes votes, and
    accept and unaccept on it are answered with 404 "Question not found". *)
Theorem question_deletion_does_not_cascade
    (s : Store) (qid id : ObjectId) (u w : User) (q : Question.t) (a : Answer.t)
    (now : Z) (inserted : bool) (raw : string) (d : VoteType) :
  questions s !! qid = Some q → Question.isDeleted q = false →
  Question.askedBy q = _id u ∨ role u = role_admin →
  answers s !! id = Some a → Answer.isDeleted a = false →
  Answer.questionId a = qid →
  Answer.answeredBy a ≠ _id w → validate_vote raw = Some d →
  let s' := (QuestionCrud.delete_question s qid u).2 in
  (QuestionCrud.delete_question s qid u).1 = json "Question deleted successfully" no_payload
  ∧ answers s' = answers s
  ∧ (AnswerRoutes.vote s' now inserted id w raw).1
    = json "Vote recorded successfully"
        (votes_payload (Answer.votes (Answer.vote a (_id w) d now)))
  ∧ AnswerRoutes.accept s' inserted id u = (error 404 "Question not found", s')
  ∧ AnswerRoutes.unaccept s' id u = (error 404 "Question not found", s').
Proof.
  intros Hq Hqd Hauth Ha Had Haq Hw Hv. cbn zeta.
  assert (QuestionCrud.delete_question s qid u
          = (json "Question deleted successfully" no_payload,
             save_question s qid (QuestionCrud.set_isDeleted q true))) as ->.
  { unfold QuestionCrud.delete_question. rewrite Hq, Hqd.
    destruct Hauth as [Hown|Hadm].
    - by rewrite (bool_decide_eq_false_2 _ (λ H, H Hown)).
    - rewrite (bool_decide_eq_false_2 (role u ≠ role_admin)) by (by intros []).
      by rewrite andb_false_r. }
  cbn [fst snd]. split_and!; [done | done | ..].
  - by destruct (answer_vote_recorded
                   (save_question s qid (QuestionCrud.set_isDeleted q true))
                   now inserted id w raw d a Hv Ha Had Hw) as (-> & _).
  - unfold AnswerRoutes.accept. simpl. rewrite Ha, Had, Haq.
    by rewrite lookup_insert_eq.
  - unfold AnswerRoutes.unaccept. simpl. rewrite Ha, Had, Haq.
    by rewrite lookup_insert_eq.
Qed.

Lemma question_deletion_does_not_cascade_witness :
  let s' := (QuestionCrud.delete_question forum 10%N dave).2 in
  status (AnswerRoutes.vote s' 7 true 20%N carol "up").1 = 200
  ∧ status (AnswerRoutes.accept s' true 20%N alice).1 = 404.
Proof.
  destruct (question_deletion_does_not_cascade forum 10%N 20%N dave carol question10
              answer20 7 true "up" up) as (_ & _ & Hv & _);
    [reflexivity | reflexivity | by right | reflexivity | reflexivity | reflexivity
    | discriminate | reflexivity |].
  destruct (question_deletion_does_not_cascade forum 10%N 20%N alice carol question10
              answer20 7 true "up" up) as (_ & _ & _ & Hacc & _);
    [reflexivity | reflexivity | by left | reflexivity | reflexivity | reflexivity
    | discriminate | reflexivity |].
  cbn zeta. rewrite Hv. split; [reflexivity|]. reflexivity.
Defined.

(** X19. A text that is too short is refused before anything is looked
    up: an answer text of fewer than 30 characters as [isLength] counts
    them (code points, variation selectors left out; not bytes) is
    answered with 400 "Validation failed" and no change, on posting and on
    editing an answer, whether or not the question or answer exists and
    whoever asks. *)
Theorem malformed_input_refused_first
    (s : Store) (inserted : bool) (id new_id : ObjectId) (u : User) (content : string) :
  (isLength_len content < 30)%nat →
  let refused := (mkResponse 400 "Validation failed" validation_errors, s) in
  QuestionCrud.post_answer s new_id inserted id u content = refused
  ∧ AnswerCrud.update_answer s id u content = refused.
Proof.
  intros Hlen. cbn zeta.
  unfold QuestionCrud.post_answer, AnswerCrud.update_answer, isLength_min.
  rewrite bool_decide_eq_false_2 by lia. done.
Qed.

Lemma malformed_input_refused_first_witness :
  AnswerCrud.update_answer forum 21%N carol "Too short."
  = (mkResponse 400 "Validation failed" validation_errors, forum)
  ∧ String.length "ééééééééééééééé" = 30%nat
  ∧ AnswerCrud.update_answer forum 21%N carol "ééééééééééééééé"
    = (mkResponse 400 "Validation failed" validation_errors, forum)
  ∧ QuestionCrud.post_answer forum 22%N true 10%N dave "ééééééééééééééé"
    = (mkResponse 400 "Validation failed" validation_errors, forum).
Proof.
  destruct (malformed_input_refused_first forum true 21%N 22%N carol "Too short.")
    as [_ Hu]; [apply (bool_decide_unpack _); vm_compute; exact I |].
  destruct (malformed_input_refused_first forum true 21%N 22%N carol "ééééééééééééééé")
    as [_ Hw]; [apply (bool_decide_unpack _); vm_compute; exact I |].
  destruct (malformed_input_refused_first forum true 10%N 22%N dave "ééééééééééééééé")
    as [Hp _]; [apply (bool_decide_unpack _); vm_compute; exact I |].
  exact (conj Hu (conj eq_refl (conj Hw Hp))).
Defined.

(** X27. A vote that is a string other than "up" and "down" is refused
    before anything is looked up: both vote routes answer 400 "Validation
    failed" and change nothing, whether or not the question or answer
    exists and whoever asks. *)
Theorem malformed_vote_refused_first
    (s : Store) (now : Z) (inserted : bool) (id : ObjectId) (u : User) (raw : string) :
  raw ≠ "up" → raw ≠ "down" →
  let refused := (mkResponse 400 "Validation failed" validation_errors, s) in
  QuestionRoutes.vote s now inserted id u raw = refused
  ∧ AnswerRoutes.vote s now inserted id u raw = refused.
Proof.
  intros Hup Hdown. cbn zeta.
  unfold QuestionRoutes.vote, AnswerRoutes.vote, validate_vote.
  by rewrite !decide_False by done.
Qed.

Lemma malformed_vote_refused_first_witness :
  AnswerRoutes.vote forum 1 true 20%N carol "UP"
  = (mkResponse 400 "Validation failed" validation_errors, forum)
  ∧ QuestionRoutes.vote forum 1 true 10%N carol "1"
    = (mkResponse 400 "Validation failed" validation_errors, forum).
Proof.
  destruct (malformed_vote_refused_first forum 1 true 20%N carol "UP")
    as [_ Hv]; [discriminate | discriminate |].
  destruct (malformed_vote_refused_first forum 1 true 10%N carol "1")
    as [Hq _]; [discriminate | discriminate |].
  exact (conj Hv Hq).
Defined.

(** * The read state of notifications *)

Section inbox.

Implicit Types (ns : gmap N Inbox.doc) (u w : ObjectId) (n x : Inbox.doc)
  (r : Inbox.request) (rs : list Inbox.request).

Lemma size_delete_le ns (i : N) : (size (delete i ns) ≤ size ns)%nat.
Proof. rewrite map_size_delete. destruct (ns !! i); simpl; lia. Qed.

Lemma size_delete_present ns (i : N) n :
  ns !! i = Some n → size ns = S (size (delete i ns)).
Proof.
  intros Hi. rewrite <- (insert_id ns i n Hi) at 1.
  rewrite <- insert_delete_eq. apply map_size_insert_None, lookup_delete_eq.
Qed.

(** What another user sees of a document is not changed by a request. *)
Lemma serve_one_other u w ns r (i : N) x :
  w ≠ u → recipientId (Inbox.data x) = w →
  Inbox.serve_one u ns r !! i = Some x ↔ ns !! i = Some x.
Proof.
  intros Hwu Hx. destruct r as [id| |id]; simpl.
  - unfold Inbox.markAsRead. destruct (ns !! id) as [n|] eqn:Hn; [|done].
    case_decide as Hrec; [|done]. simpl. rewrite lookup_insert.
    case_decide as Hid; [|done]. subst i. rewrite Hn. split.
    + intros [= <-]. simpl in Hx. congruence.
    + intros [= <-]. congruence.
  - unfold Inbox.markAllAsRead. rewrite lookup_fmap.
    destruct (ns !! i) as [n|]; [|done]. simpl.
    destruct (decide (Inbox.unread_of u n)) as [[Hrec _]|Hno]; [|done]. split.
    + intros [= <-]. simpl in Hx. congruence.
    + intros [= <-]. congruence.
  - unfold Inbox.deleteNotification. destruct (ns !! id) as [n|] eqn:Hn; [|done].
    case_decide as Hrec; [|done]. simpl. rewrite lookup_delete.
    case_decide as Hid; [|done]. subst i. rewrite Hn. split; [done|].
    intros [= <-]. congruence.
Qed.

Lemma serve_one_filter_other (P : N * Inbox.doc → Prop) `{!∀ kv, Decision (P kv)}
    u w ns r :
  w ≠ u → (∀ i x, P (i, x) → recipientId (Inbox.data x) = w) →
  filter P (Inbox.serve_one u ns r) = filter P ns.
Proof.
  intros Hwu HP. apply map_filter_strong_ext_1. intros i x. split.
  - intros [Hp Hl]. split; [done|]. by eapply serve_one_other, Hl; eauto.
  - intros [Hp Hl]. split; [done|]. by eapply serve_one_other; eauto.
Qed.

Lemma serve_one_count u w ns r :
  (Inbox.getUnreadCount (Inbox.serve_one u ns r) w ≤ Inbox.getUnreadCount ns w)%nat.
Proof.
  destruct (decide (w = u)) as [->|Hwu].
  - unfold Inbox.getUnreadCount. destruct r as [id| |id]; simpl.
    + unfold Inbox.markAsRead. destruct (ns !! id) as [n|]; [|done].
      case_decide; [|done]. simpl.
      rewrite map_filter_insert_False by (by intros [_ [=]]).
      rewrite map_filter_delete. apply size_delete_le.
    + assert (filter (λ kv, Inbox.unread_of u kv.2) (Inbox.markAllAsRead ns u) = ∅)
        as ->; [|rewrite map_size_empty; lia].
      apply map_empty. intros i. apply eq_None_not_Some. intros [x Hx].
      apply map_lookup_filter_Some in Hx as [Hl [Hrec Hread]].
      unfold Inbox.markAllAsRead in Hl. rewrite lookup_fmap in Hl.
      destruct (ns !! i) as [n|]; [|done]. simpl in *. injection Hl as <-.
      destruct (decide (Inbox.unread_of u n)) as [?|Hno]; [done|].
      by apply Hno.
    + unfold Inbox.deleteNotification. destruct (ns !! id) as [n|]; [|done].
      case_decide; [|done]. simpl. rewrite map_filter_delete. apply size_delete_le.
  - unfold Inbox.getUnreadCount.
    rewrite (serve_one_filter_other _ u w); [done | done |].
    by intros i x [Hrec _].
Qed.

End inbox.

(** X20. [markAllAsRead] leaves its user with no unread notification,
    removes nothing, and leaves every other user's unread count as it
    was. *)
Theorem mark_all_read_clears_only_own
    (ns : gmap N Inbox.doc) (u w : ObjectId) :
  w ≠ u →
  Inbox.getUnreadCount (Inbox.markAllAsRead ns u) u = 0%nat
  ∧ Inbox.getUnreadCount (Inbox.markAllAsRead ns u) w = Inbox.getUnreadCount ns w
  ∧ size (Inbox.markAllAsRead ns u) = size ns.
Proof.
  intros Hwu. split_and!.
  - pose proof (serve_one_count u u ns Inbox.read_all) as Hle. simpl in Hle.
    assert (filter (λ kv, Inbox.unread_of u kv.2) (Inbox.markAllAsRead ns u) = ∅) as Hnone.
    { apply map_empty. intros i. apply eq_None_not_Some. intros [x Hx].
      apply map_lookup_filter_Some in Hx as [Hl [Hrec Hread]].
      unfold Inbox.markAllAsRead in Hl. rewrite lookup_fmap in Hl.
      destruct (ns !! i) as [n|]; [|done]. simpl in *. injection Hl as <-.
      destruct (decide (Inbox.unread_of u n)) as [?|Hno]; [done|].
      by apply Hno. }
    unfold Inbox.getUnreadCount. by rewrite Hnone, map_size_empty.
  - unfold Inbox.getUnreadCount.
    change (Inbox.markAllAsRead ns u) with (Inbox.serve_one u ns Inbox.read_all).
    rewrite (serve_one_filter_other _ u w); [done | done |].
    by intros i x [Hrec _].
  - apply map_size_fmap.
Qed.

Lemma mark_all_read_clears_only_own_witness :
  Inbox.getUnreadCount inbox 2%N = 2%nat
  ∧ Inbox.getUnreadCount (Inbox.markAllAsRead inbox 2%N) 2%N = 0%nat
  ∧ Inbox.getUnreadCount (Inbox.markAllAsRead inbox 2%N) 3%N = 1%nat.
Proof.
  destruct (mark_all_read_clears_only_own inbox 2%N 3%N) as (H0 & Hw & _); [done|].
  rewrite H0, Hw. by vm_compute.
Defined.

(** X21. Nothing a user does to the notification collection (marking one
    or all as read, deleting one, under whatever ids) changes a
    notification addressed to somebody else, or somebody else's unread
    count. *)
Theorem inbox_requests_touch_only_own
    (ns : gmap N Inbox.doc) (u w : ObjectId) (rs : list Inbox.request) :
  w ≠ u →
  Inbox.of_user w (Inbox.serve_all u ns rs) = Inbox.of_user w ns
  ∧ Inbox.getUnreadCount (Inbox.serve_all u ns rs) w = Inbox.getUnreadCount ns w.
Proof.
  intros Hwu. revert ns. induction rs as [|r rs IH]; intros ns; [done|]. simpl.
  destruct (IH (Inbox.serve_one u ns r)) as [-> ->].
  unfold Inbox.of_user, Inbox.getUnreadCount. split.
  - by rewrite (serve_one_filter_other _ u w).
  - rewrite (serve_one_filter_other _ u w); [done | done |]. by intros i x [Hrec _].
Qed.

Lemma inbox_requests_touch_only_own_witness :
  Inbox.serve_all 3%N inbox [Inbox.read_one 30%N; Inbox.remove 31%N; Inbox.read_all] !! 30%N
  = inbox !! 30%N
  ∧ Inbox.getUnreadCount
      (Inbox.serve_all 3%N inbox [Inbox.read_one 30%N; Inbox.remove 31%N; Inbox.read_all])
      2%N = 2%nat.
Proof.
  destruct (inbox_requests_touch_only_own inbox 3%N 2%N
              [Inbox.read_one 30%N; Inbox.remove 31%N; Inbox.read_all]) as [_ Hc]; [done|].
  rewrite Hc. split; by vm_compute.
Defined.

(** X22. Marking an unread notification as read by its recipient returns
    the document with [read = true], lowers the recipient's unread count
    by exactly one, and doing it a second time changes nothing more. *)
Theorem mark_read_counts_once
    (ns : gmap N Inbox.doc) (id u : ObjectId) (n : Inbox.doc) :
  ns !! id = Some n → recipientId (Inbox.data n) = u → Inbox.read n = false →
  let once := Inbox.markAsRead ns id u in
  once.1 = Some (Inbox.mk (Inbox.data n) true)
  ∧ once.2 !! id = Some (Inbox.mk (Inbox.data n) true)
  ∧ S (Inbox.getUnreadCount once.2 u) = Inbox.getUnreadCount ns u
  ∧ Inbox.markAsRead once.2 id u = once.
Proof.
  intros Hn Hrec Hread. cbn zeta. unfold Inbox.markAsRead.
  rewrite Hn, decide_True by done. cbn [fst snd]. rewrite lookup_insert_eq. simpl.
  rewrite decide_True by done. split_and!; [done | done | | by rewrite insert_insert_eq].
  unfold Inbox.getUnreadCount.
  rewrite map_filter_insert_False by (by intros [_ [=]]).
  rewrite map_filter_delete. symmetry. apply (size_delete_present _ id n).
  by apply map_lookup_filter_Some.
Qed.

Lemma mark_read_counts_once_witness :
  Inbox.getUnreadCount (Inbox.markAsRead inbox 30%N 2%N).2 2%N = 1%nat.
Proof.
  destruct (mark_read_counts_once inbox 30%N 2%N
              (Inbox.create
                 (mkNotification 2%N 3%N type_vote "Vote Received"
                    "carol upvoted your answer" (answer_link 20%N 20%N) None (Some 20%N))))
    as (_ & _ & Hc & _); [reflexivity..|].
  apply (inj S). rewrite Hc. by vm_compute.
Defined.

(** X23. No request to the notification collection raises anybody's
    unread count. *)
Theorem unread_count_never_grows
    (ns : gmap N Inbox.doc) (u w : ObjectId) (rs : list Inbox.request) :
  (Inbox.getUnreadCount (Inbox.serve_all u ns rs) w ≤ Inbox.getUnreadCount ns w)%nat.
Proof.
  revert ns. induction rs as [|r rs IH]; intros ns; [done|]. simpl.
  etrans; [apply IH|]. apply serve_one_count.
Qed.

(** X24. The block on deleting an accepted answer lifts with the
    acceptance: the answer's author (or an admin) is refused while the
    answer is accepted, and after the question's author has unaccepted it
    the same delete request succeeds and marks the answer deleted. *)
Theorem unaccept_then_delete_succeeds
    (s : Store) (id : ObjectId) (asker deleter : User)
    (a : Answer.t) (q : Question.t) :
  answers s !! id = Some a → Answer.isDeleted a = false →
  Answer.isAccepted a = true →
  questions s !! Answer.questionId a = Some q → Question.isDeleted q = false →
  Question.askedBy q = _id asker →
  Answer.answeredBy a = _id deleter ∨ role deleter = role_admin →
  let s1 := (AnswerRoutes.unaccept s id asker).2 in
  (AnswerRoutes.delete_answer s id deleter).1 = error 400 "Cannot delete an accepted answer"
  ∧ (AnswerRoutes.delete_answer s1 id deleter).1 = json "Answer deleted successfully" no_payload
  ∧ answers (AnswerRoutes.delete_answer s1 id deleter).2 !! id
    = Some (Answer.set_isDeleted (Answer.unaccept a) true)
  ∧ Question.acceptedAnswer <$>
      questions (AnswerRoutes.delete_answer s1 id deleter).2 !! Answer.questionId a
    = Some None.
Proof.
  intros Ha Hd Hf Hq Hqd Hown Hauth. cbn zeta.
  assert (bool_decide (Answer.answeredBy a ≠ _id deleter)
          && bool_decide (role deleter ≠ role_admin) = false) as Hok.
  { destruct Hauth as [Hme|Hadm].
    - by rewrite (bool_decide_eq_false_2 _ (λ H, H Hme)).
    - rewrite (bool_decide_eq_false_2 (role deleter ≠ role_admin)) by (by intros []).
      by rewrite andb_false_r. }
  split.
  { unfold AnswerRoutes.delete_answer. by rewrite Ha, Hd, Hok, Hf. }
  unfold AnswerRoutes.unaccept.
  rewrite Ha, Hd, Hq, Hqd, decide_False, Hf by (by intros []). cbn [negb snd]. cbn zeta.
  unfold AnswerRoutes.delete_answer. simpl. rewrite lookup_insert_eq. simpl.
  rewrite Hd, Hok. simpl. by rewrite !lookup_insert_eq.
Qed.

Lemma unaccept_then_delete_succeeds_witness :
  (AnswerRoutes.delete_answer forum_accepted 20%N bob).1
  = error 400 "Cannot delete an accepted answer"
  ∧ (AnswerRoutes.delete_answer (AnswerRoutes.unaccept forum_accepted 20%N alice).2
       20%N bob).1 = json "Answer deleted successfully" no_payload.
Proof.
  destruct (unaccept_then_delete_succeeds forum_accepted 20%N alice bob
              (Answer.accept answer20)
              (Question.set_acceptedAnswer question10 (Some 20%N)))
    as (H1 & H2 & _); [reflexivity .. | by left |].
  exact (conj H1 H2).
Defined.
